(** * The flag registry of absl/flags/internal/registry.cc

    A shallow embedding of the registry of command-line flags
    ([FlagRegistry], the lookup entry points, retirement and [FlagSaver])
    together with the properties its specification states about it.

    C++ objects live in a heap indexed by addresses; a [CommandLineFlag*]
    is an address, so that "the same descriptor" means "the same address".
    Every function of the source is a computation in a small state monad
    whose outcomes are: normal return, [std::exit], a failed [assert], or
    the use of a pointer that does not point to an object. *)

From stdpp Require Import gmap strings list sorting.

Local Open Scope string_scope.

(** ** Flag descriptors *)

(** The typed value a flag holds is opaque to the registry; it is kept in
    its marshalled (textual) form. *)
Abbreviation Value := string (only parsing).

(** [FlagOpFn]: the address of the instantiation [FlagOps<T>], one per
    value type [T]; the type is named by its C++ spelling. *)
Inductive FlagOpFn :=
  | FlagOps (T : string).

(** [FlagMarshallingOpFn]: an opaque function address. *)
Abbreviation FlagMarshallingOpFn := N (only parsing).

(** The dynamic class of a descriptor.  [RetiredFlagObj] is the class of
    the source; every other descriptor is an ordinary flag, which may or
    may not hand out a state capsule. *)
Inductive FlagClass :=
  | OrdinaryFlag (saves_state : bool)
  | RetiredFlagObj.

(** The members set by the constructor
    [CommandLineFlag(name, help_text, filename, op, marshalling_op,
                     initial_value_gen, def, cur)];
    a [void*] member is [None] when it is [nullptr]. *)
Record CommandLineFlag := mkFlag {
  dyn_class : FlagClass;
  name_ : string;
  help_ : option string;
  filename_ : string;
  op_ : FlagOpFn;
  marshalling_op_ : FlagMarshallingOpFn;
  initial_value_gen_ : option N;
  def_ : option Value;
  cur_ : option Value;
}.

Global Instance FlagOpFn_eq_dec : EqDecision FlagOpFn.
Proof. solve_decision. Defined.

Global Instance FlagClass_eq_dec : EqDecision FlagClass.
Proof. solve_decision. Defined.

Global Instance CommandLineFlag_eq_dec : EqDecision CommandLineFlag.
Proof. solve_decision. Defined.

Definition Name (f : CommandLineFlag) : string := name_ f.

(** [IsRetired] is virtual: [RetiredFlagObj] overrides it to return true. *)
Definition IsRetired (f : CommandLineFlag) : bool :=
  match dyn_class f with
  | RetiredFlagObj => true
  | OrdinaryFlag _ => false
  end.

(** Modelled from the spec: [Filename()] is defined outside this file; it
    is the descriptor's defining location. *)
Definition Filename (f : CommandLineFlag) : string := filename_ f.

(** Modelled from the spec: [Typename()] is defined outside this file; it
    is a printable form of the type token. *)
Definition Typename (f : CommandLineFlag) : string :=
  match op_ f with FlagOps T => T end.

(** [IsOfType<bool>()] compares the type token with [&FlagOps<bool>]. *)
Definition IsOfType_bool (f : CommandLineFlag) : bool :=
  bool_decide (op_ f = FlagOps "bool").

(** [absl::StrCat]. *)
Definition StrCat (pieces : list string) : string :=
  foldr String.append "" pieces.

(** ** The process state *)

(** What the process does that an observer can see, in order. *)
Inductive Event :=
  | EvLock
  | EvUnlock
  | EvReportUsageError (msg : string) (is_fatal : bool).

Global Instance Event_eq_dec : EqDecision Event.
Proof. solve_decision. Defined.

(** [heap]: the flag objects; [flags_]: the map of the singleton
    [FlagRegistry::GlobalRegistry()]; [trace]: the events so far, oldest
    first. *)
Record World := mkWorld {
  heap : gmap positive CommandLineFlag;
  flags_ : gmap string positive;
  trace : list Event;
}.

Inductive Outcome (A : Type) :=
  | Returns (a : A) (w : World)
  | Exits (status : Z) (w : World)
  | AssertionFails (w : World)
  | Undefined.

Arguments Returns {A} a w.
Arguments Exits {A} status w.
Arguments AssertionFails {A} w.
Arguments Undefined {A}.

Definition M (A : Type) : Type := World → Outcome A.

Global Instance M_ret : MRet M := λ A a w, Returns a w.

Global Instance M_bind : MBind M := λ A B k c w,
  match c w with
  | Returns a w' => k a w'
  | Exits status w' => Exits status w'
  | AssertionFails w' => AssertionFails w'
  | Undefined => Undefined
  end.

Definition emit (e : Event) : M unit :=
  λ w, Returns () (mkWorld (heap w) (flags_ w) (trace w ++ [e])).

(** [std::exit(status)]. *)
Definition std_exit {A} (status : Z) : M A := λ w, Exits status w.

(** [assert(e)]. *)
Definition assert (e : bool) : M unit :=
  λ w, if e then Returns () w else AssertionFails w.

(** [*p] for a flag pointer [p]. *)
Definition deref (p : positive) : M CommandLineFlag :=
  λ w, match heap w !! p with
       | Some f => Returns f w
       | None => Undefined
       end.

(** [new T(...)]: the object is placed at an address not in use. *)
Definition new (f : CommandLineFlag) : M positive :=
  λ w, let p := fresh (dom (heap w)) in
       Returns p (mkWorld (<[p := f]> (heap w)) (flags_ w) (trace w)).

(** [*p = f] for a flag pointer [p] that points to an object. *)
Definition store (p : positive) (f : CommandLineFlag) : M unit :=
  λ w, Returns () (mkWorld (<[p := f]> (heap w)) (flags_ w) (trace w)).

(** [delete p]. *)
Definition delete_obj (p : positive) : M unit :=
  λ w, Returns () (mkWorld (delete p (heap w)) (flags_ w) (trace w)).

Definition get_flags_ : M (gmap string positive) :=
  λ w, Returns (flags_ w) w.

Definition set_flags_ (m : gmap string positive) : M unit :=
  λ w, Returns () (mkWorld (heap w) m (trace w)).

(** [FlagRegistry::Lock] and [FlagRegistry::Unlock]. *)
Definition Lock : M unit := emit EvLock.
Definition Unlock : M unit := emit EvUnlock.

(** Modelled from the spec: the diagnostic sink
    [report_usage_error(message, is_fatal)] is defined outside this file;
    it emits the message and returns to its caller. *)
Definition ReportUsageError (msg : string) (is_fatal : bool) : M unit :=
  emit (EvReportUsageError msg is_fatal).

(** ** FlagRegistry *)

(** [std::map::insert]: an existing entry is never overwritten; the result
    is the entry now under the key and whether the insertion took place. *)
Definition FlagMap_insert (m : gmap string positive) (k : string) (v : positive)
  : gmap string positive * (positive * bool) :=
  match m !! k with
  | Some v0 => (m, (v0, false))
  | None => (<[k := v]> m, (v, true))
  end.

(** [RetiredFlagObj::Destroy]: the placeholder values, then the object
    itself, are released.  (The destructor of an ordinary flag is outside
    this file; the registry only ever destroys a duplicate tombstone.) *)
Definition Destroy (flag : positive) : M unit :=
  _ ← deref flag; delete_obj flag.

Definition RegisterFlag (flag : positive) : M unit :=
  Lock;;
  f ← deref flag;
  flags ← get_flags_;
  let '(flags', ins) := FlagMap_insert flags (Name f) flag in
  set_flags_ flags';;
  if negb ins.2 then
    let old_flag := ins.1 in
    o ← deref old_flag;
    if negb (eqb (IsRetired f) (IsRetired o)) then
      ReportUsageError
        (StrCat ["Retired flag '"; Name f;
                 "' was defined normally in file '";
                 (if IsRetired f then Filename o else Filename f);
                 "'."])
        true;;
      std_exit 1
    else if negb (bool_decide (op_ f = op_ o)) then
      ReportUsageError
        (StrCat ["Flag '"; Name f;
                 "' was defined more than once but with ";
                 "differing types. Defined in files '";
                 Filename o; "' and '"; Filename f;
                 "' with types '"; Typename o; "' and '";
                 Typename f; "', respectively."])
        true;;
      std_exit 1
    else if IsRetired o then
      Destroy flag;;
      Unlock
    else if negb (bool_decide (Filename o = Filename f)) then
      ReportUsageError
        (StrCat ["Flag '"; Name f;
                 "' was defined more than once (in files '";
                 Filename o; "' and '"; Filename f;
                 "')."])
        true;;
      std_exit 1
    else
      ReportUsageError
        (StrCat ["Something wrong with flag '"; Name f; "' in file '";
                 Filename f; "'. One possibility: file '"; Filename f;
                 "' is being linked both statically and dynamically into this ";
                 "executable. e.g. some files listed as srcs to a test and also ";
                 "listed as srcs of some shared lib deps of the same test."])
        true;;
      std_exit 1
  else
    Unlock.

Definition FindFlagLocked (name : string) : M (option positive) :=
  flags ← get_flags_;
  match flags !! name with
  | None => mret None
  | Some i =>
      f ← deref i;
      (if IsRetired f then
         ReportUsageError (StrCat ["Accessing retired flag '"; name; "'"]) false
       else mret ());;
      mret (Some i)
  end.

Definition FindRetiredFlagLocked (name : string) : M (option positive) :=
  flags ← get_flags_;
  match flags !! name with
  | None => mret None
  | Some i =>
      f ← deref i;
      if negb (IsRetired f) then mret None else mret (Some i)
  end.

(** ** Lookup and enumeration entry points *)

Definition FindCommandLineFlag (name : string) : M (option positive) :=
  if bool_decide (name = "") then mret None
  else
    Lock;;
    r ← FindFlagLocked name;
    Unlock;;
    mret r.

Definition FindRetiredFlag (name : string) : M (option positive) :=
  Lock;;
  r ← FindRetiredFlagLocked name;
  Unlock;;
  mret r.

(** The order of [std::map<absl::string_view, ...>]: by key. *)
Definition name_le (p q : string * positive) : Prop :=
  String.leb p.1 q.1 = true.

Global Instance name_le_dec p q : Decision (name_le p q).
Proof. unfold name_le. apply _. Defined.

(** The descriptors of the map from [begin()] to [end()]. *)
Definition FlagMap_values (m : gmap string positive) : list positive :=
  (merge_sort name_le (map_to_list m)).*2.

(** The visitor, a [std::function] taking a flag pointer, is a closure:
    [S] is the state it captured by reference, threaded through the calls. *)
Fixpoint visit_all {S} (visitor : positive → S → M S)
    (ps : list positive) (s : S) : M S :=
  match ps with
  | [] => mret s
  | p :: ps' => s' ← visitor p s; visit_all visitor ps' s'
  end.

Definition ForEachFlagUnlocked {S} (visitor : positive → S → M S) (s : S)
  : M S :=
  flags ← get_flags_;
  visit_all visitor (FlagMap_values flags) s.

Definition ForEachFlag {S} (visitor : positive → S → M S) (s : S) : M S :=
  Lock;;
  s' ← ForEachFlagUnlocked visitor s;
  Unlock;;
  mret s'.

Definition RegisterCommandLineFlag (flag : positive) : M bool :=
  RegisterFlag flag;;
  mret true.

(** ** Snapshots *)

(** A [FlagStateInterface] object: the descriptor it was taken from and a
    copy of the value the descriptor held. *)
Record FlagState := mkFlagState {
  flag_ : positive;
  cur_value_ : option Value;
}.

Global Instance FlagState_eq_dec : EqDecision FlagState.
Proof. solve_decision. Defined.

Definition set_cur (f : CommandLineFlag) (v : option Value) : CommandLineFlag :=
  mkFlag (dyn_class f) (name_ f) (help_ f) (filename_ f) (op_ f)
         (marshalling_op_ f) (initial_value_gen_ f) (def_ f) v.

(** Modelled from the spec: [SaveState] of an ordinary flag is defined
    outside this file; it yields a self-contained copy of the current value
    with the identity of the descriptor, or nothing if the descriptor opts
    out. *)
Definition OrdinaryFlag_SaveState (flag : positive) (f : CommandLineFlag)
    (saves_state : bool) : option FlagState :=
  if saves_state then Some (mkFlagState flag (cur_ f)) else None.

(** [SaveState] is virtual; [RetiredFlagObj::SaveState] returns
    [nullptr]. *)
Definition SaveState (flag : positive) : M (option FlagState) :=
  f ← deref flag;
  match dyn_class f with
  | RetiredFlagObj => mret None
  | OrdinaryFlag saves_state =>
      mret (OrdinaryFlag_SaveState flag f saves_state)
  end.

(** Modelled from the spec: [FlagStateInterface::Restore] is defined
    outside this file; it writes the copied value back into the descriptor
    the capsule was taken from. *)
Definition Restore (st : FlagState) : M unit :=
  f ← deref (flag_ st);
  store (flag_ st) (set_cur f (cur_value_ st)).

Record FlagSaverImpl := mkFlagSaverImpl {
  backup_registry_ : list FlagState;
}.

Definition save_visitor (flag : positive) (this : FlagSaverImpl)
  : M FlagSaverImpl :=
  flag_state ← SaveState flag;
  match flag_state with
  | Some st => mret (mkFlagSaverImpl (backup_registry_ this ++ [st]))
  | None => mret this
  end.

Definition SaveFromRegistry (this : FlagSaverImpl) : M FlagSaverImpl :=
  assert (bool_decide (backup_registry_ this = []));;
  ForEachFlag save_visitor this.

Fixpoint restore_all (states : list FlagState) : M unit :=
  match states with
  | [] => mret ()
  | flag_state :: rest => Restore flag_state;; restore_all rest
  end.

Definition RestoreToRegistry (this : FlagSaverImpl) : M unit :=
  restore_all (backup_registry_ this).

(** [FlagSaver] owns its [FlagSaverImpl] through [impl_]; [None] is
    [nullptr]. *)
Record FlagSaver := mkFlagSaver {
  impl_ : option FlagSaverImpl;
}.

(** [FlagSaver::FlagSaver()]. *)
Definition FlagSaver_ctor : M FlagSaver :=
  impl ← SaveFromRegistry (mkFlagSaverImpl []);
  mret (mkFlagSaver (Some impl)).

Definition Ignore (this : FlagSaver) : M FlagSaver :=
  mret (mkFlagSaver None).

(** [FlagSaver::~FlagSaver()]. *)
Definition FlagSaver_dtor (this : FlagSaver) : M unit :=
  match impl_ this with
  | None => mret ()
  | Some impl => RestoreToRegistry impl
  end.

(** ** Retirement *)

(** The constructor of [RetiredFlagObj]. *)
Definition RetiredFlagObj_new (name : string) (ops : FlagOpFn)
    (marshalling_ops : FlagMarshallingOpFn) : CommandLineFlag :=
  mkFlag RetiredFlagObj name None "RETIRED" ops marshalling_ops None None None.

Definition Retire (name : string) (ops : FlagOpFn)
    (marshalling_ops : FlagMarshallingOpFn) : M bool :=
  flag ← new (RetiredFlagObj_new name ops marshalling_ops);
  RegisterFlag flag;;
  mret true.

(** [type_is_bool] is an out-parameter: [None] is [nullptr], [Some b] a
    pointer to a [bool] holding [b]; the second component of the result is
    what it holds on return. *)
Definition IsRetiredFlag (name : string) (type_is_bool : option bool)
  : M (bool * option bool) :=
  assert (negb (bool_decide (name = "")));;
  flag ← FindRetiredFlag name;
  match flag with
  | None => mret (false, type_is_bool)
  | Some p =>
      assert (bool_decide (is_Some type_is_bool));;
      f ← deref p;
      mret (true, Some (IsOfType_bool f))
  end.

(** ** Notions used in the statements *)

(** [w] after the events [evs]. *)
Definition after_events (w : World) (evs : list Event) : World :=
  mkWorld (heap w) (flags_ w) (trace w ++ evs).

(** No entry of the registry dangles. *)
Definition registry_valid (w : World) : Prop :=
  map_Forall (λ _ p, is_Some (heap w !! p)) (flags_ w).

Global Instance registry_valid_dec w : Decision (registry_valid w).
Proof. unfold registry_valid. apply _. Defined.

(** The five diagnostics of [RegisterFlag], in the order of its tests. *)
Definition msg_retired_mismatch (f o : CommandLineFlag) : string :=
  StrCat ["Retired flag '"; Name f; "' was defined normally in file '";
          (if IsRetired f then Filename o else Filename f); "'."].

Definition msg_type_mismatch (f o : CommandLineFlag) : string :=
  StrCat ["Flag '"; Name f; "' was defined more than once but with ";
          "differing types. Defined in files '";
          Filename o; "' and '"; Filename f;
          "' with types '"; Typename o; "' and '";
          Typename f; "', respectively."].

Definition msg_location_mismatch (f o : CommandLineFlag) : string :=
  StrCat ["Flag '"; Name f; "' was defined more than once (in files '";
          Filename o; "' and '"; Filename f; "')."].

Definition msg_identical (f : CommandLineFlag) : string :=
  StrCat ["Something wrong with flag '"; Name f; "' in file '";
          Filename f; "'. One possibility: file '"; Filename f;
          "' is being linked both statically and dynamically into this ";
          "executable. e.g. some files listed as srcs to a test and also ";
          "listed as srcs of some shared lib deps of the same test."].

(** The world in which [RegisterFlag] calls [std::exit(1)] after the
    diagnostic [msg]: the lock is held, nothing else has changed. *)
Definition fatal (w : World) (msg : string) : Outcome unit :=
  Exits 1 (after_events w [EvLock; EvReportUsageError msg true]).

(** The registrations that are no conflict: the name is new, or the
    incoming and the resident descriptor are both retired and of one
    type. *)
Definition benign (w : World) (f : CommandLineFlag) : Prop :=
  flags_ w !! Name f = None ∨
  ∃ old_flag o,
    flags_ w !! Name f = Some old_flag ∧ heap w !! old_flag = Some o ∧
    IsRetired f = true ∧ IsRetired o = true ∧ op_ f = op_ o.

(** The capsule [SaveState] hands out for the object at [p] of heap [h]. *)
Definition capsule_of (h : gmap positive CommandLineFlag) (p : positive)
  : option FlagState :=
  f ← h !! p;
  match dyn_class f with
  | OrdinaryFlag true => Some (mkFlagState p (cur_ f))
  | _ => None
  end.

(** The capsules are all for descriptors that exist in [w]. *)
Definition targets_exist (states : list FlagState) (w : World) : Prop :=
  Forall (λ st, is_Some (heap w !! flag_ st)) states.

Global Instance targets_exist_dec states w : Decision (targets_exist states w).
Proof. unfold targets_exist. apply _. Defined.

(** Settles a decidable closed proposition by evaluation. *)
Ltac by_compute :=
  match goal with
  | |- ?P => apply (bool_decide_unpack P); vm_compute; exact I
  end.

(** ** Sample states *)

(** No flag is registered, nothing has happened. *)
Definition empty_world : World := mkWorld ∅ ∅ [].

Definition verbose_a : CommandLineFlag :=
  mkFlag (OrdinaryFlag true) "verbose" (Some "Be verbose") "a.cc"
         (FlagOps "bool") 7 None (Some "false") (Some "false").

Definition verbose_b : CommandLineFlag :=
  mkFlag (OrdinaryFlag true) "verbose" (Some "Be verbose") "b.cc"
         (FlagOps "bool") 7 None (Some "false") (Some "false").

Definition tombstone : CommandLineFlag :=
  RetiredFlagObj_new "legacy" (FlagOps "int") 9.

(** "verbose" is a live flag at address 1 and "legacy" a tombstone at
    address 2; the objects at 3 and 4 are not registered. *)
Definition sample_world : World :=
  mkWorld (<[1%positive := verbose_a]> (<[2%positive := tombstone]>
            (<[3%positive := tombstone]> (<[4%positive := verbose_b]> ∅))))
          (<["verbose" := 1%positive]> (<["legacy" := 2%positive]> ∅))
          [].

(** The value of "verbose" has been changed since [sample_world]. *)
Definition sample_mutated : World :=
  mkWorld (<[1%positive := set_cur verbose_a (Some "true")]>
             (heap sample_world))
          (flags_ sample_world) (trace sample_world).

(** A tombstone registered under the empty name, as [Retire] leaves it. *)
Definition unnamed_tombstone_world : World :=
  mkWorld {[1%positive := RetiredFlagObj_new "" (FlagOps "bool") 0]}
          {["" := 1%positive]}
          [EvLock; EvUnlock].

(** ** Notions used in the further properties *)

(** Every entry of the registry is filed under the name of the descriptor
    it points to (so no entry dangles and no descriptor has two entries). *)
Definition registry_consistent (w : World) : Prop :=
  map_Forall (λ n p, Name <$> heap w !! p = Some n) (flags_ w).

Global Instance registry_consistent_dec w : Decision (registry_consistent w).
Proof. unfold registry_consistent. apply _. Defined.


(** The usage warning of [FindFlagLocked]. *)
Definition retired_warning (name : string) : Event :=
  EvReportUsageError (StrCat ["Accessing retired flag '"; name; "'"]) false.

(** The events that are usage errors. *)
Definition is_usage_error (e : Event) : bool :=
  match e with
  | EvReportUsageError _ _ => true
  | _ => false
  end.

(** ** Random bits to floating point
       (absl/random/internal/distribution_impl.h) *)

(** The tag types that select the sign of the result. *)
Inductive SignedT :=
  | PositiveValueT
  | NegativeValueT
  | SignedValueT.

(** [DBL_MANT_DIG] and [FLT_MANT_DIG] of [<cfloat>] for IEEE 754. *)
Definition DBL_MANT_DIG : Z := 53.
Definition FLT_MANT_DIG : Z := 24.

(** Conversion to [uint64_t] and to [uint32_t]. *)
Definition u64 (z : Z) : Z := z mod 2 ^ 64.
Definition u32 (z : Z) : Z := z mod 2 ^ 32.

Section RandU64To.
(** [base_internal::CountLeadingZeros64] is declared in
    absl/base/internal/bits.h, outside these sources. *)
Variable CountLeadingZeros64 : Z → Z.

(** The result is the object representation of the [double] returned: the
    [uint64_t] that [memcpy] copies into it.  The early [return 0] is the
    double [+0.0], whose representation is 0. *)
Definition RandU64ToDouble (Signed : SignedT) (IncludeZero : bool)
    (ExponentBias : Z) (bits : Z) : Z :=
  let sign :=
    match Signed with NegativeValueT => 0x8000000000000000 | _ => 0 end%Z in
  let '(sign, bits) :=
    match Signed with
    | SignedValueT =>
        (Z.land bits 0x8000000000000000, Z.land bits 0x7FFFFFFFFFFFFFFF)
    | _ => (sign, bits)
    end in
  if IncludeZero && (bits =? 0)%Z then 0%Z
  else
    let clz := CountLeadingZeros64 bits in
    let bits :=
      u64 (Z.shiftl bits (if IncludeZero then clz else Z.land clz 63)) in
    let bits := Z.shiftr bits (64 - DBL_MANT_DIG) in
    let exp :=
      u64 (match Signed with SignedValueT => 1023 | _ => 1022 end
           + u64 (ExponentBias - clz)) in
    let kExp := (DBL_MANT_DIG - 1)%Z in
    Z.lor (Z.lor sign (u64 (Z.shiftl exp kExp)))
          (Z.land bits (u64 (Z.shiftl 1 kExp) - 1)).

(** The result is the object representation of the [float] returned, a
    [uint32_t]. *)
Definition RandU64ToFloat (Signed : SignedT) (IncludeZero : bool)
    (ExponentBias : Z) (bits : Z) : Z :=
  let sign := match Signed with NegativeValueT => 0x80000000 | _ => 0 end%Z in
  let '(sign, bits) :=
    match Signed with
    | SignedValueT =>
        let a := Z.land bits 0x8000000000000000 in
        (u32 (Z.shiftr a 32), Z.land bits 0x7FFFFFFFFFFFFFFF)
    | _ => (sign, bits)
    end in
  if IncludeZero && (bits =? 0)%Z then 0%Z
  else
    let clz := CountLeadingZeros64 bits in
    let bits :=
      u64 (Z.shiftl bits (if IncludeZero then clz else Z.land clz 63)) in
    let bits := Z.shiftr bits (64 - FLT_MANT_DIG) in
    let exp :=
      u32 (match Signed with SignedValueT => 127 | _ => 126 end
           + u32 (ExponentBias - clz)) in
    let kExp := (FLT_MANT_DIG - 1)%Z in
    u32 (Z.lor (Z.lor sign (u32 (Z.shiftl exp kExp)))
               (Z.land bits (u32 (Z.shiftl 1 kExp) - 1))).

(** [RandU64ToReal<Result>::Value]: the [double] variant for every
    [Result] but [float]. *)
Definition RandU64ToReal_Value (Result_is_float : bool) (Signed : SignedT)
    (IncludeZero : bool) (ExponentBias : Z) (bits : Z) : Z :=
  if Result_is_float
  then RandU64ToFloat Signed IncludeZero ExponentBias bits
  else RandU64ToDouble Signed IncludeZero ExponentBias bits.
End RandU64To.

(** A count of leading zeros, to run the functions above on samples. *)
Definition clz64 (n : Z) : Z :=
  if (n =? 0)%Z then 64%Z else (63 - Z.log2 n)%Z.

(** The part of the input that becomes exponent and mantissa, and the
    sign bit of the result. *)
Definition magnitude (Signed : SignedT) (bits : Z) : Z :=
  match Signed with
  | SignedValueT => (bits mod 2 ^ 63)%Z
  | _ => bits
  end.

Definition sign_bit (Signed : SignedT) (bits : Z) : Z :=
  match Signed with
  | PositiveValueT => 0%Z
  | NegativeValueT => 1%Z
  | SignedValueT => (bits / 2 ^ 63)%Z
  end.

(** The exponent field of the value 1 (double, float) and the exponent the
    functions start from. *)
Definition exponent_base (Signed : SignedT) (one : Z) : Z :=
  match Signed with
  | SignedValueT => one
  | _ => (one - 1)%Z
  end.

(** * Properties *)

(** ** Registration *)

Section Collision.
Variables (w : World) (flag old_flag : positive) (f o : CommandLineFlag).
Hypothesis Hflag : heap w !! flag = Some f.
Hypothesis Hentry : flags_ w !! Name f = Some old_flag.
Hypothesis Hold : heap w !! old_flag = Some o.

(** What [RegisterFlag] does once the name is found in the map. *)
Lemma RegisterFlag_collision :
  RegisterFlag flag w =
    if negb (eqb (IsRetired f) (IsRetired o)) then
      fatal w (msg_retired_mismatch f o)
    else if negb (bool_decide (op_ f = op_ o)) then
      fatal w (msg_type_mismatch f o)
    else if IsRetired o then
      Returns () (mkWorld (delete flag (heap w)) (flags_ w)
                          (trace w ++ [EvLock; EvUnlock]))
    else if negb (bool_decide (Filename o = Filename f)) then
      fatal w (msg_location_mismatch f o)
    else
      fatal w (msg_identical f).
Proof.
  unfold RegisterFlag, fatal, after_events, FlagMap_insert, Destroy.
  unfold msg_retired_mismatch, msg_type_mismatch, msg_location_mismatch,
    msg_identical.
  unfold Lock, Unlock, ReportUsageError, emit, deref, get_flags_,
    set_flags_, delete_obj, std_exit, mbind, M_bind; simpl.
  rewrite Hflag; simpl. rewrite Hentry; simpl. rewrite Hold; simpl.
  destruct (IsRetired f), (IsRetired o); simpl;
    destruct (bool_decide (op_ f = op_ o)); simpl;
    try destruct (bool_decide (Filename o = Filename f)); simpl;
    rewrite ?Hflag; simpl; rewrite <- ?app_assoc; reflexivity.
Qed.
End Collision.

Lemma append_cancel_l (s a b : string) :
  String.append s a = String.append s b → a = b.
Proof. induction s as [|c s IH]; simpl; [done|]. intros [= H]. by apply IH. Qed.

(** The four diagnostics tell the four fatal tests apart. *)
Lemma diagnostics_distinct f o :
  msg_retired_mismatch f o ≠ msg_type_mismatch f o ∧
  msg_retired_mismatch f o ≠ msg_location_mismatch f o ∧
  msg_retired_mismatch f o ≠ msg_identical f ∧
  msg_type_mismatch f o ≠ msg_location_mismatch f o ∧
  msg_type_mismatch f o ≠ msg_identical f ∧
  msg_location_mismatch f o ≠ msg_identical f.
Proof.
  unfold msg_retired_mismatch, msg_type_mismatch, msg_location_mismatch,
    msg_identical, StrCat; simpl.
  repeat split; try discriminate.
  intros [= H]. simpl in H. apply (append_cancel_l (Name f)) in H.
  simpl in H. discriminate H.
Qed.

(** What [RegisterFlag] does when the name is not yet in the map. *)
Lemma RegisterFlag_new w flag f :
  heap w !! flag = Some f →
  flags_ w !! Name f = None →
  RegisterFlag flag w =
    Returns () (mkWorld (heap w) (<[Name f := flag]> (flags_ w))
                        (trace w ++ [EvLock; EvUnlock])).
Proof.
  intros Hflag Hnone.
  unfold RegisterFlag, FlagMap_insert.
  unfold Lock, Unlock, emit, deref, get_flags_, set_flags_, mbind, M_bind;
    simpl.
  rewrite Hflag; simpl. rewrite Hnone; simpl.
  by rewrite <- app_assoc.
Qed.

(** Registering an object the registry does not know yet keeps the
    registry free of dangling entries. *)
Lemma RegisterFlag_valid w flag f w' :
  registry_valid w →
  heap w !! flag = Some f →
  (∀ n, flags_ w !! n ≠ Some flag) →
  RegisterFlag flag w = Returns () w' →
  registry_valid w'.
Proof.
  intros Hvalid Hflag Hunknown Hrun.
  destruct (flags_ w !! Name f) as [old_flag|] eqn:Hentry.
  - destruct (Hvalid _ _ Hentry) as [o Hold].
    rewrite (RegisterFlag_collision w flag old_flag f o Hflag Hentry Hold)
      in Hrun.
    unfold fatal in Hrun. repeat case_match; simplify_eq.
    intros n p Hn; simpl in *.
    rewrite lookup_delete_ne by (intros <-; by eapply Hunknown).
    by eapply Hvalid.
  - rewrite (RegisterFlag_new w flag f Hflag Hentry) in Hrun.
    simplify_eq. apply map_Forall_insert_2; simpl; [eauto|exact Hvalid].
Qed.

Lemma empty_world_valid : registry_valid empty_world.
Proof. apply map_Forall_empty. Qed.

Lemma RegisterCommandLineFlag_unfold flag w :
  RegisterCommandLineFlag flag w =
    match RegisterFlag flag w with
    | Returns _ w' => Returns true w'
    | Exits status w' => Exits status w'
    | AssertionFails w' => AssertionFails w'
    | Undefined => Undefined
    end.
Proof. reflexivity. Qed.

(** C1: when the name of the incoming descriptor is already in the
    registry, [RegisterFlag] tests, in this order: (1) the retired bits
    differ: fatal; (2) else the type tokens differ: fatal; (3) else the
    resident descriptor is retired: the incoming one is destroyed, the
    resident one is kept and the call returns; (4) else the defining
    locations differ: fatal; (5) else: fatal. *)
Theorem RegisterFlag_conflict_order w flag old_flag f o :
  heap w !! flag = Some f →
  flags_ w !! Name f = Some old_flag →
  heap w !! old_flag = Some o →
  (IsRetired f ≠ IsRetired o →
     RegisterFlag flag w = fatal w (msg_retired_mismatch f o)) ∧
  (IsRetired f = IsRetired o → op_ f ≠ op_ o →
     RegisterFlag flag w = fatal w (msg_type_mismatch f o)) ∧
  (IsRetired f = IsRetired o → op_ f = op_ o → IsRetired o = true →
     ∃ w', RegisterFlag flag w = Returns () w' ∧
           heap w' = delete flag (heap w) ∧
           flags_ w' = flags_ w ∧
           (flag ≠ old_flag → heap w' !! old_flag = Some o)) ∧
  (IsRetired f = IsRetired o → op_ f = op_ o → IsRetired o = false →
     Filename o ≠ Filename f →
     RegisterFlag flag w = fatal w (msg_location_mismatch f o)) ∧
  (IsRetired f = IsRetired o → op_ f = op_ o → IsRetired o = false →
     Filename o = Filename f →
     RegisterFlag flag w = fatal w (msg_identical f)).
Proof.
  intros Hflag Hentry Hold.
  rewrite (RegisterFlag_collision w flag old_flag f o Hflag Hentry Hold).
  repeat split.
  - intros Hne. destruct (IsRetired f), (IsRetired o); done.
  - intros -> Hop. rewrite eqb_reflx; simpl.
    by rewrite bool_decide_eq_false_2.
  - intros -> Hop ->; simpl. rewrite bool_decide_eq_true_2 by done; simpl.
    eexists; split; [reflexivity|]; simpl.
    repeat split. intros Hne. by rewrite lookup_delete_ne.
  - intros -> Hop -> Hfile; simpl.
    rewrite bool_decide_eq_true_2 by done; simpl.
    by rewrite bool_decide_eq_false_2.
  - intros -> Hop -> Hfile; simpl.
    rewrite bool_decide_eq_true_2 by done; simpl.
    by rewrite bool_decide_eq_true_2.
Qed.

(** A second tombstone for "legacy" (address 3) is destroyed and the one
    at address 2 kept. *)
Lemma RegisterFlag_conflict_order_witness :
  ∃ w', RegisterFlag 3 sample_world = Returns () w' ∧
        heap w' = delete 3%positive (heap sample_world) ∧
        flags_ w' = flags_ sample_world ∧
        (3%positive ≠ 2%positive → heap w' !! 2%positive = Some tombstone).
Proof.
  apply (RegisterFlag_conflict_order sample_world 3 2 tombstone tombstone);
    reflexivity.
Defined.

(** C2: [RegisterCommandLineFlag] never returns false; it returns true when
    the name is new or both descriptors are retired and of one type, and
    otherwise reports a fatal usage error and calls [std::exit(1)]. *)
Theorem RegisterCommandLineFlag_true_or_exit w flag f :
  heap w !! flag = Some f →
  (∀ old_flag, flags_ w !! Name f = Some old_flag →
               is_Some (heap w !! old_flag)) →
  (∀ w', RegisterCommandLineFlag flag w ≠ Returns false w') ∧
  (benign w f → ∃ w', RegisterCommandLineFlag flag w = Returns true w') ∧
  (¬ benign w f →
     ∃ msg, RegisterCommandLineFlag flag w =
              Exits 1 (after_events w [EvLock; EvReportUsageError msg true])).
Proof.
  intros Hflag Hvalid.
  rewrite RegisterCommandLineFlag_unfold.
  destruct (flags_ w !! Name f) as [old_flag|] eqn:Hentry.
  - destruct (Hvalid old_flag eq_refl) as [o Hold].
    rewrite (RegisterFlag_collision w flag old_flag f o Hflag Hentry Hold).
    unfold benign, fatal. rewrite Hentry.
    destruct (IsRetired f) eqn:Hf, (IsRetired o) eqn:Ho; simpl;
      try (split; [done|]; split;
           [intros [?|(? & ? & ? & ? & ? & ? & ?)]; simplify_eq; congruence
           |eauto]).
    + destruct (decide (op_ f = op_ o)) as [Hop|Hop].
      * rewrite bool_decide_eq_true_2 by done; simpl.
        split; [done|]. split; [eauto|].
        intros Hnb. destruct Hnb. right. eauto 10.
      * rewrite bool_decide_eq_false_2 by done; simpl.
        split; [done|]. split; [|eauto].
        intros [?|(? & ? & ? & ? & ? & ? & ?)]; simplify_eq.
    + destruct (bool_decide (op_ f = op_ o)); simpl;
        [destruct (bool_decide (Filename o = Filename f)); simpl|];
        (split; [done|]; split;
           [intros [?|(? & ? & ? & ? & ? & ? & ?)]; simplify_eq; congruence
           |eauto]).
  - rewrite (RegisterFlag_new w flag f Hflag Hentry).
    split; [done|]. split; [eauto|].
    intros Hnb. destruct Hnb. by left.
Qed.

(** Registering "verbose" again from another file is fatal. *)
Lemma RegisterCommandLineFlag_true_or_exit_witness :
  ∃ msg, RegisterCommandLineFlag 4 sample_world =
           Exits 1 (after_events sample_world
                      [EvLock; EvReportUsageError msg true]).
Proof.
  apply (RegisterCommandLineFlag_true_or_exit sample_world 4 verbose_b).
  - reflexivity.
  - intros old_flag Hold. vm_compute in Hold. injection Hold as <-.
    by eexists.
  - intros [Hnew|(old_flag & o & Ha & Hb & Hc & _)]; vm_compute in *; done.
Defined.

(** C10: a registration under a name that is already in the registry leaves
    the map as it was, whether the call returns (duplicate tombstone) or
    the process exits (every other case); the name stays bound to the
    resident descriptor, which is not touched. *)
Theorem RegisterFlag_keeps_binding w flag old_flag f o :
  heap w !! flag = Some f →
  flags_ w !! Name f = Some old_flag →
  heap w !! old_flag = Some o →
  ∃ w', (RegisterFlag flag w = Returns () w' ∨
         RegisterFlag flag w = Exits 1 w') ∧
        flags_ w' = flags_ w ∧
        flags_ w' !! Name f = Some old_flag ∧
        (flag ≠ old_flag → heap w' !! old_flag = Some o).
Proof.
  intros Hflag Hentry Hold.
  rewrite (RegisterFlag_collision w flag old_flag f o Hflag Hentry Hold).
  unfold fatal, after_events.
  repeat case_match; eexists; (split; [by (left + right)|]); simpl;
    repeat split; try done.
  intros Hne. by rewrite lookup_delete_ne.
Qed.

Lemma RegisterFlag_keeps_binding_witness :
  ∃ w', (RegisterFlag 4 sample_world = Returns () w' ∨
         RegisterFlag 4 sample_world = Exits 1 w') ∧
        flags_ w' = flags_ sample_world ∧
        flags_ w' !! Name verbose_b = Some 1%positive ∧
        (4%positive ≠ 1%positive → heap w' !! 1%positive = Some verbose_a).
Proof.
  apply (RegisterFlag_keeps_binding sample_world 4 1 verbose_b verbose_a);
    reflexivity.
Defined.

(** ** Snapshots *)

Lemma SaveState_eq w p f :
  heap w !! p = Some f →
  SaveState p w = Returns (capsule_of (heap w) p) w.
Proof.
  intros Hp. unfold SaveState, capsule_of, deref, mbind, M_bind, mret, M_ret.
  rewrite Hp; simpl.
  destruct (dyn_class f) as [[]|]; reflexivity.
Qed.

Lemma visit_all_save ps : ∀ this w,
  Forall (λ p, is_Some (heap w !! p)) ps →
  visit_all save_visitor ps this w =
    Returns (mkFlagSaverImpl
               (backup_registry_ this ++ omap (capsule_of (heap w)) ps)) w.
Proof.
  induction ps as [|p ps IH]; intros this w Hall; simpl.
  - rewrite app_nil_r. by destruct this.
  - apply Forall_cons in Hall as [[f Hp] Hall].
    unfold mbind, M_bind, save_visitor at 1.
    unfold mbind, M_bind. rewrite (SaveState_eq w p f Hp).
    destruct (capsule_of (heap w) p) as [st|]; unfold mret, M_ret.
    + rewrite (IH _ w Hall); simpl. by rewrite <- app_assoc.
    + by rewrite (IH _ w Hall).
Qed.

Lemma FlagMap_values_elem (m : gmap string positive) p :
  p ∈ FlagMap_values m ↔ ∃ n, m !! n = Some p.
Proof.
  unfold FlagMap_values. rewrite list_elem_of_fmap. split.
  - intros ([n q] & -> & Hin). exists n.
    rewrite merge_sort_Permutation in Hin.
    by apply elem_of_map_to_list in Hin.
  - intros [n Hn]. exists (n, p). split; [done|].
    rewrite merge_sort_Permutation. by apply elem_of_map_to_list.
Qed.

Lemma SaveFromRegistry_fresh w :
  registry_valid w →
  SaveFromRegistry (mkFlagSaverImpl []) w =
    Returns (mkFlagSaverImpl
               (omap (capsule_of (heap w)) (FlagMap_values (flags_ w))))
            (after_events w [EvLock; EvUnlock]).
Proof.
  intros Hvalid.
  unfold SaveFromRegistry, ForEachFlag, ForEachFlagUnlocked.
  unfold assert, Lock, Unlock, emit, get_flags_, mbind, M_bind, mret, M_ret;
    simpl.
  rewrite visit_all_save; simpl.
  - unfold after_events. by rewrite <- app_assoc.
  - apply Forall_forall. intros p [n Hn]%FlagMap_values_elem.
    exact (Hvalid n p Hn).
Qed.

Lemma elem_of_captured h (ps : list positive) st :
  st ∈ omap (capsule_of h) ps ↔
  ∃ f, flag_ st ∈ ps ∧ h !! flag_ st = Some f ∧
       dyn_class f = OrdinaryFlag true ∧ cur_value_ st = cur_ f.
Proof.
  rewrite list_elem_of_omap. unfold capsule_of. split.
  - intros (p & Hin & Hcap).
    destruct (h !! p) as [f|] eqn:Hp; simpl in Hcap; [|done].
    destruct (dyn_class f) as [[]|] eqn:Hc; simplify_eq. simpl. eauto.
  - intros (f & Hin & Hp & Hc & Hv). exists (flag_ st). split; [done|].
    rewrite Hp; simpl. rewrite Hc. destruct st; simpl in *. by subst.
Qed.

Lemma set_cur_set_cur f u v : set_cur (set_cur f u) v = set_cur f v.
Proof. reflexivity. Qed.

(** [restore_all] writes every capsule back and touches nothing else. *)
Lemma restore_all_spec states : ∀ w',
  targets_exist states w' →
  ∃ w'', restore_all states w' = Returns () w'' ∧
    flags_ w'' = flags_ w' ∧ trace w'' = trace w' ∧
    (∀ p, p ∉ flag_ <$> states → heap w'' !! p = heap w' !! p) ∧
    (∀ p v, p ∈ flag_ <$> states →
            (∀ st, st ∈ states → flag_ st = p → cur_value_ st = v) →
            ∃ f', heap w' !! p = Some f' ∧
                  heap w'' !! p = Some (set_cur f' v)).
Proof.
  induction states as [|st rest IH]; intros w' Hall.
  - exists w'. repeat split; try done. intros p v Hin. by inversion Hin.
  - apply Forall_cons in Hall as [[f Hf] Hall].
    set (w1 := mkWorld (<[flag_ st := set_cur f (cur_value_ st)]> (heap w'))
                       (flags_ w') (trace w')).
    assert (Hstep : restore_all (st :: rest) w' = restore_all rest w1).
    { simpl. unfold Restore, deref, store, mbind, M_bind. by rewrite Hf. }
    destruct (IH w1) as (w'' & Hrun & Hflags & Htrace & Hother & Hsame).
    { eapply Forall_impl; [exact Hall|]. intros st' [f' Hf']; simpl.
      destruct (decide (flag_ st = flag_ st')) as [<-|Hne].
      - rewrite lookup_insert_eq. eauto.
      - rewrite lookup_insert_ne by done. eauto. }
    exists w''. rewrite Hstep. repeat split; try done.
    + intros p Hp. rewrite fmap_cons, not_elem_of_cons in Hp.
      destruct Hp as [Hne Hp]. rewrite (Hother p Hp); simpl.
      by rewrite lookup_insert_ne.
    + intros p v Hp Huni.
      destruct (decide (p ∈ flag_ <$> rest)) as [Hin|Hnin].
      * destruct (Hsame p v Hin) as (f1 & Hf1 & Hres).
        { intros st' Hst'. apply Huni. by right. }
        simpl in Hf1. destruct (decide (flag_ st = p)) as [<-|Hne].
        -- rewrite lookup_insert_eq in Hf1. injection Hf1 as <-.
           exists f. by rewrite Hres, set_cur_set_cur.
        -- rewrite lookup_insert_ne in Hf1 by done. eauto.
      * rewrite fmap_cons, elem_of_cons in Hp. destruct Hp as [->|]; [|done].
        exists f. split; [done|]. rewrite (Hother _ Hnin); simpl.
        rewrite lookup_insert_eq. f_equal. f_equal.
        apply Huni; [by left|done].
Qed.

Lemma capsule_of_retired h p f :
  h !! p = Some f → IsRetired f = true → capsule_of h p = None.
Proof.
  intros Hp Hr. unfold capsule_of. rewrite Hp; simpl.
  unfold IsRetired in Hr. by destruct (dyn_class f).
Qed.

(** Capsules taken in one world agree on the value of a descriptor. *)
Lemma captured_uniform h (ps : list positive) p f st :
  h !! p = Some f → st ∈ omap (capsule_of h) ps → flag_ st = p →
  cur_value_ st = cur_ f.
Proof.
  intros Hp (f' & _ & Hf' & _ & Hv)%elem_of_captured <-. congruence.
Qed.

(** C3: a snapshot taken in [w] and restored in any later world [w'] (in
    which the captured descriptors still exist) gives back, to every
    registered descriptor that handed out a capsule, the value it had in
    [w]; a retired descriptor hands out no capsule, is not in the snapshot
    and is not touched by the restore. *)
Theorem snapshot_restore_round_trip w :
  registry_valid w →
  ∃ this w1,
    SaveFromRegistry (mkFlagSaverImpl []) w = Returns this w1 ∧
    heap w1 = heap w ∧ flags_ w1 = flags_ w ∧
    (∀ n p f, flags_ w !! n = Some p → heap w !! p = Some f →
              IsRetired f = true →
              SaveState p w = Returns None w ∧
              p ∉ flag_ <$> backup_registry_ this) ∧
    ∀ w', targets_exist (backup_registry_ this) w' →
      ∃ w'', RestoreToRegistry this w' = Returns () w'' ∧
        (∀ n p f st, flags_ w !! n = Some p → heap w !! p = Some f →
                     SaveState p w = Returns (Some st) w →
                     ∃ f'', heap w'' !! p = Some f'' ∧ cur_ f'' = cur_ f) ∧
        (∀ p, p ∉ flag_ <$> backup_registry_ this →
              heap w'' !! p = heap w' !! p).
Proof.
  intros Hvalid. eexists _, _.
  split; [exact (SaveFromRegistry_fresh w Hvalid)|]; simpl.
  split; [done|]. split; [done|]. split.
  - intros n p f Hn Hp Hr. rewrite (SaveState_eq w p f Hp).
    rewrite (capsule_of_retired _ p f Hp Hr). split; [done|].
    intros (st & -> & Hin)%list_elem_of_fmap.
    apply elem_of_captured in Hin as (f' & _ & Hf' & Hc & _).
    rewrite Hp in Hf'. injection Hf' as <-.
    unfold IsRetired in Hr. by rewrite Hc in Hr.
  - intros w' Hall. unfold RestoreToRegistry; simpl.
    destruct (restore_all_spec _ w' Hall)
      as (w'' & Hrun & _ & _ & Hother & Hsame).
    exists w''. split; [done|]. split; [|done].
    intros n p f st Hn Hp Hsave.
    rewrite (SaveState_eq w p f Hp) in Hsave.
    injection Hsave as Hcap.
    destruct (Hsame p (cur_ f)) as (f' & _ & Hres).
    + apply list_elem_of_fmap. exists st. unfold capsule_of in Hcap.
      rewrite Hp in Hcap; simpl in Hcap.
      destruct (dyn_class f) as [[]|] eqn:Hc; simplify_eq. split; [done|].
      apply elem_of_captured. exists f; simpl. repeat split; try done.
      apply FlagMap_values_elem. eauto.
    + intros st' Hst' Hfl. by eapply captured_uniform.
    + exists (set_cur f' (cur_ f)). by rewrite Hres.
Qed.

(** "verbose" is captured as "false", changed to "true", and restored. *)
Lemma snapshot_restore_round_trip_witness :
  registry_valid sample_world ∧
  ∃ w'', RestoreToRegistry
           (mkFlagSaverImpl [mkFlagState 1 (Some "false")]) sample_mutated
         = Returns () w'' ∧
         ∃ f'', heap w'' !! 1%positive = Some f'' ∧ cur_ f'' = Some "false".
Proof.
  assert (Hvalid : registry_valid sample_world).
  { by_compute. }
  split; [exact Hvalid|].
  destruct (snapshot_restore_round_trip sample_world Hvalid)
    as (this & w1 & Hsave & _ & _ & _ & Hrestore).
  rewrite (SaveFromRegistry_fresh _ Hvalid) in Hsave.
  injection Hsave as <- <-.
  destruct (Hrestore sample_mutated) as (w'' & Hrun & Hval & _).
  { by_compute. }
  exists w''. split; [exact Hrun|].
  apply (Hval "verbose" 1%positive verbose_a (mkFlagState 1 (Some "false")));
    reflexivity.
Defined.

Lemma visit_all_save_no_assert ps : ∀ this w w',
  visit_all save_visitor ps this w ≠ AssertionFails w'.
Proof.
  induction ps as [|p ps IH]; intros this w w'; simpl; [done|].
  unfold mbind, M_bind, save_visitor at 1, SaveState, deref.
  unfold mbind, M_bind, mret, M_ret.
  destruct (heap w !! p) as [f|]; [|done].
  destruct (dyn_class f) as [[]|]; apply IH.
Qed.

(** C8, as the code has it: [SaveFromRegistry] fails its assertion exactly
    when the backup set of the object is not empty.  On an object that has
    not captured before the assertion holds; it fails on a second capture
    if and only if the first one stored a capsule, that is, if some
    registered descriptor handed one out. *)
Theorem SaveFromRegistry_assertion this w :
  (backup_registry_ this ≠ [] → SaveFromRegistry this w = AssertionFails w) ∧
  (backup_registry_ this = [] →
     ∀ w', SaveFromRegistry this w ≠ AssertionFails w') ∧
  (registry_valid w →
     ∃ this1 w1,
       SaveFromRegistry (mkFlagSaverImpl []) w = Returns this1 w1 ∧
       ∀ w2, SaveFromRegistry this1 w2 = AssertionFails w2 ↔
             ∃ n p f, flags_ w !! n = Some p ∧ heap w !! p = Some f ∧
                      dyn_class f = OrdinaryFlag true).
Proof.
  assert (Hne : ∀ t w0, backup_registry_ t ≠ [] →
                        SaveFromRegistry t w0 = AssertionFails w0).
  { intros t w0 Ht. unfold SaveFromRegistry, assert, mbind, M_bind.
    by rewrite bool_decide_eq_false_2. }
  assert (He : ∀ t w0 w', backup_registry_ t = [] →
                          SaveFromRegistry t w0 ≠ AssertionFails w').
  { intros t w0 w' Ht. unfold SaveFromRegistry, assert, mbind, M_bind.
    rewrite bool_decide_eq_true_2 by done.
    unfold ForEachFlag, ForEachFlagUnlocked, Lock, Unlock, emit, get_flags_,
      mbind, M_bind, mret, M_ret; simpl.
    match goal with
    | |- context [visit_all save_visitor ?ps ?t0 ?w1] =>
        pose proof (visit_all_save_no_assert ps t0 w1) as Hno;
        destruct (visit_all save_visitor ps t0 w1)
    end; done. }
  split; [apply Hne|]. split; [intros Ht w'; by apply He|].
  intros Hvalid. eexists _, _.
  split; [exact (SaveFromRegistry_fresh w Hvalid)|].
  intros w2. split.
  - intros Hfail.
    destruct (omap (capsule_of (heap w)) (FlagMap_values (flags_ w)))
      as [|st l] eqn:Hl.
    + exfalso. by eapply (He (mkFlagSaverImpl []) w2 w2).
    + assert (Hin : st ∈ omap (capsule_of (heap w))
                              (FlagMap_values (flags_ w)))
        by (rewrite Hl; left).
      apply elem_of_captured in Hin as (f & [n Hn]%FlagMap_values_elem
                                          & Hp & Hc & _).
      eauto 10.
  - intros (n & p & f & Hn & Hp & Hc). apply Hne; simpl.
    intros Hnil.
    assert (Hin : mkFlagState p (cur_ f)
                    ∈ omap (capsule_of (heap w)) (FlagMap_values (flags_ w))).
    { apply elem_of_captured. exists f; simpl. repeat split; try done.
      apply FlagMap_values_elem. eauto. }
    rewrite Hnil in Hin. by inversion Hin.
Qed.

(** In [sample_world] the first capture stores the capsule of "verbose",
    so a second capture on the same object fails the assertion. *)
Lemma SaveFromRegistry_assertion_witness :
  registry_valid sample_world ∧
  ∃ this1 w1,
    SaveFromRegistry (mkFlagSaverImpl []) sample_world = Returns this1 w1 ∧
    SaveFromRegistry this1 w1 = AssertionFails w1.
Proof.
  assert (Hvalid : registry_valid sample_world).
  { by_compute. }
  split; [exact Hvalid|].
  destruct (SaveFromRegistry_assertion (mkFlagSaverImpl []) sample_world)
    as (_ & _ & Hsecond).
  destruct (Hsecond Hvalid) as (this1 & w1 & Hfirst & Hiff).
  exists this1, w1. split; [exact Hfirst|].
  apply Hiff. exists "verbose", 1%positive, verbose_a. repeat split.
Defined.

(** On an empty registry a second capture on the same object passes the
    assertion and returns. *)
Lemma second_capture_returns :
  (this ← SaveFromRegistry (mkFlagSaverImpl []); SaveFromRegistry this)
    empty_world
  = Returns (mkFlagSaverImpl [])
            (mkWorld ∅ ∅ [EvLock; EvUnlock; EvLock; EvUnlock]).
Proof. vm_compute. reflexivity. Qed.

(** C9: after [Ignore] the destructor changes nothing, in whatever world
    it runs; without [Ignore] it writes every capsule back into its
    descriptor, and the capsules hold the values of the world in which
    the [FlagSaver] was constructed. *)
Theorem FlagSaver_discard_or_restore w :
  registry_valid w →
  ∃ impl w1,
    FlagSaver_ctor w = Returns (mkFlagSaver (Some impl)) w1 ∧
    (∀ st, st ∈ backup_registry_ impl →
           ∃ f, heap w !! flag_ st = Some f ∧ cur_value_ st = cur_ f) ∧
    ∀ w',
      (∃ saver', Ignore (mkFlagSaver (Some impl)) w' = Returns saver' w' ∧
                 FlagSaver_dtor saver' w' = Returns () w') ∧
      (targets_exist (backup_registry_ impl) w' →
         ∃ w'', FlagSaver_dtor (mkFlagSaver (Some impl)) w' = Returns () w'' ∧
                ∀ st, st ∈ backup_registry_ impl →
                      ∃ f'', heap w'' !! flag_ st = Some f'' ∧
                             cur_ f'' = cur_value_ st).
Proof.
  intros Hvalid. eexists _, _. split.
  { unfold FlagSaver_ctor, mbind, M_bind.
    rewrite (SaveFromRegistry_fresh w Hvalid). reflexivity. }
  simpl. split.
  { intros st (f & _ & Hp & _ & Hv)%elem_of_captured. eauto. }
  intros w'. split; [by eexists|].
  intros Hall. unfold FlagSaver_dtor, RestoreToRegistry; simpl.
  destruct (restore_all_spec _ w' Hall) as (w'' & Hrun & _ & _ & _ & Hsame).
  exists w''. split; [done|].
  intros st Hst.
  pose proof Hst as (f & _ & Hp & _ & Hv)%elem_of_captured.
  destruct (Hsame (flag_ st) (cur_value_ st)) as (f' & _ & Hres).
  - apply list_elem_of_fmap. eauto.
  - intros st' Hst' Hfl. rewrite Hv.
    eapply captured_uniform; [exact Hp|exact Hst'|exact Hfl].
  - exists (set_cur f' (cur_value_ st)). by rewrite Hres.
Qed.

Lemma FlagSaver_discard_or_restore_witness :
  registry_valid sample_world ∧
  ∃ impl w1,
    FlagSaver_ctor sample_world = Returns (mkFlagSaver (Some impl)) w1 ∧
    (Ignore (mkFlagSaver (Some impl)) ≫= FlagSaver_dtor) sample_mutated
      = Returns () sample_mutated ∧
    ∃ w'', FlagSaver_dtor (mkFlagSaver (Some impl)) sample_mutated
             = Returns () w'' ∧
           ∃ f'', heap w'' !! 1%positive = Some f'' ∧ cur_ f'' = Some "false".
Proof.
  assert (Hvalid : registry_valid sample_world).
  { by_compute. }
  split; [exact Hvalid|].
  destruct (FlagSaver_discard_or_restore sample_world Hvalid)
    as (impl & w1 & Hctor & Hcaps & Hdtor).
  exists impl, w1. split; [exact Hctor|].
  unfold FlagSaver_ctor, mbind, M_bind in Hctor.
  rewrite (SaveFromRegistry_fresh _ Hvalid) in Hctor.
  injection Hctor as <- <-.
  destruct (Hdtor sample_mutated) as [_ Hrestore].
  split; [reflexivity|].
  destruct Hrestore as (w'' & Hrun & Hval).
  { by_compute. }
  exists w''. split; [exact Hrun|].
  apply (Hval (mkFlagState 1 (Some "false"))).
  vm_compute. left.
Defined.

(** ** Retirement *)

Lemma fresh_unused (h : gmap positive CommandLineFlag) :
  h !! fresh (dom h) = None.
Proof. apply not_elem_of_dom. apply is_fresh. Qed.

Lemma Retire_unfold name ops marshalling_ops w :
  Retire name ops marshalling_ops w =
    let p := fresh (dom (heap w)) in
    match RegisterFlag p
            (mkWorld (<[p := RetiredFlagObj_new name ops marshalling_ops]>
                        (heap w))
                     (flags_ w) (trace w)) with
    | Returns _ w' => Returns true w'
    | Exits status w' => Exits status w'
    | AssertionFails w' => AssertionFails w'
    | Undefined => Undefined
    end.
Proof. reflexivity. Qed.

(** [Retire] keeps the registry free of dangling entries. *)
Lemma Retire_valid w name ops marshalling_ops w' :
  registry_valid w →
  Retire name ops marshalling_ops w = Returns true w' →
  registry_valid w'.
Proof.
  intros Hvalid Hrun. rewrite Retire_unfold in Hrun; simpl in Hrun.
  set (p := fresh (dom (heap w))) in *.
  set (t := RetiredFlagObj_new name ops marshalling_ops) in *.
  set (w0 := mkWorld (<[p := t]> (heap w)) (flags_ w) (trace w)) in *.
  assert (Hfresh : heap w !! p = None) by apply fresh_unused.
  destruct (RegisterFlag p w0) as [[] w1| | |] eqn:Hreg; simplify_eq.
  apply (RegisterFlag_valid w0 p t w'); [|apply lookup_insert_eq| |done].
  - intros n q Hn; simpl. destruct (Hvalid n q Hn) as [g Hq].
    rewrite lookup_insert_ne by congruence. eauto.
  - intros n Hn; simpl in Hn. destruct (Hvalid n p Hn) as [g Hq]. congruence.
Qed.

(** C4: retiring a name that is not in the registry twice, with one type
    token, returns true both times; afterwards the name is bound to the
    tombstone the first call created, the registry has grown by this one
    entry, and the tombstone the second call created is destroyed (the
    second call leaves heap and registry as they were). *)
Theorem Retire_twice w name ops m1 m2 :
  flags_ w !! name = None →
  ∃ p1 w1 w2,
    Retire name ops m1 w = Returns true w1 ∧
    Retire name ops m2 w1 = Returns true w2 ∧
    heap w !! p1 = None ∧
    heap w1 = <[p1 := RetiredFlagObj_new name ops m1]> (heap w) ∧
    flags_ w1 = <[name := p1]> (flags_ w) ∧
    heap w2 = heap w1 ∧
    flags_ w2 = flags_ w1 ∧
    heap w2 !! fresh (dom (heap w1)) = None ∧
    size (flags_ w2) = S (size (flags_ w)).
Proof.
  intros Hnew.
  set (p1 := fresh (dom (heap w))).
  set (t1 := RetiredFlagObj_new name ops m1).
  set (w1 := mkWorld (<[p1 := t1]> (heap w)) (<[name := p1]> (flags_ w))
                     (trace w ++ [EvLock; EvUnlock])).
  assert (H1 : Retire name ops m1 w = Returns true w1).
  { rewrite Retire_unfold; simpl.
    rewrite (RegisterFlag_new _ p1 t1);
      [reflexivity|apply lookup_insert_eq|done]. }
  set (p2 := fresh (dom (heap w1))).
  set (t2 := RetiredFlagObj_new name ops m2).
  assert (Hp2 : heap w1 !! p2 = None) by apply fresh_unused.
  assert (H2 : Retire name ops m2 w1
               = Returns true (after_events w1 [EvLock; EvUnlock])).
  { rewrite Retire_unfold; simpl. fold p2 t2.
    assert (Hne : p2 ≠ p1).
    { intros Heq. rewrite Heq in Hp2. simpl in Hp2.
      by rewrite lookup_insert_eq in Hp2. }
    rewrite (RegisterFlag_collision _ p2 p1 t2 t1); simpl.
    - rewrite bool_decide_eq_true_2 by done; simpl.
      rewrite delete_insert_eq.
      rewrite delete_id by exact Hp2. reflexivity.
    - apply lookup_insert_eq.
    - apply lookup_insert_eq.
    - rewrite lookup_insert_ne by done. apply lookup_insert_eq. }
  exists p1, w1, (after_events w1 [EvLock; EvUnlock]).
  repeat split; try done.
  - apply fresh_unused.
  - simpl. by apply map_size_insert_None.
Qed.

Lemma Retire_twice_witness :
  ∃ p1 w1 w2,
    Retire "legacy" (FlagOps "int") 9 empty_world = Returns true w1 ∧
    Retire "legacy" (FlagOps "int") 9 w1 = Returns true w2 ∧
    heap empty_world !! p1 = None ∧
    heap w1 = <[p1 := RetiredFlagObj_new "legacy" (FlagOps "int") 9]>
                (heap empty_world) ∧
    flags_ w1 = <["legacy" := p1]> (flags_ empty_world) ∧
    heap w2 = heap w1 ∧
    flags_ w2 = flags_ w1 ∧
    heap w2 !! fresh (dom (heap w1)) = None ∧
    size (flags_ w2) = S (size (flags_ empty_world)).
Proof.
  apply (Retire_twice empty_world "legacy" (FlagOps "int") 9 9).
  reflexivity.
Defined.

(** ** Lookup *)

Lemma FindFlagLocked_eq w name p f :
  flags_ w !! name = Some p → heap w !! p = Some f →
  FindFlagLocked name w =
    Returns (Some p)
      (if IsRetired f
       then after_events w
              [EvReportUsageError
                 (StrCat ["Accessing retired flag '"; name; "'"]) false]
       else w).
Proof.
  intros Hn Hp.
  unfold FindFlagLocked, ReportUsageError, emit, deref, get_flags_,
    mbind, M_bind, mret, M_ret; simpl.
  rewrite Hn; simpl. rewrite Hp; simpl.
  by destruct (IsRetired f).
Qed.

Lemma FindRetiredFlagLocked_eq w name :
  FindRetiredFlagLocked name w =
    match flags_ w !! name with
    | None => Returns None w
    | Some p =>
        match heap w !! p with
        | Some f => Returns (if IsRetired f then Some p else None) w
        | None => Undefined
        end
    end.
Proof.
  unfold FindRetiredFlagLocked, deref, get_flags_, mbind, M_bind, mret, M_ret;
    simpl.
  destruct (flags_ w !! name) as [p|]; [|done].
  destruct (heap w !! p) as [f|]; [|done].
  by destruct (IsRetired f).
Qed.

Lemma FindRetiredFlag_eq w name :
  FindRetiredFlag name w =
    match flags_ w !! name with
    | None => Returns None (after_events w [EvLock; EvUnlock])
    | Some p =>
        match heap w !! p with
        | Some f => Returns (if IsRetired f then Some p else None)
                            (after_events w [EvLock; EvUnlock])
        | None => Undefined
        end
    end.
Proof.
  unfold FindRetiredFlag, Lock, Unlock, emit. unfold mbind at 1 2, M_bind.
  rewrite FindRetiredFlagLocked_eq; simpl.
  unfold after_events, mbind, M_bind, mret, M_ret.
  destruct (flags_ w !! name) as [p|]; simpl.
  - destruct (heap w !! p) as [f|]; simpl; [|done].
    by rewrite <- app_assoc.
  - by rewrite <- app_assoc.
Qed.

Lemma FindCommandLineFlag_eq w name p f :
  name ≠ "" → flags_ w !! name = Some p → heap w !! p = Some f →
  FindCommandLineFlag name w =
    Returns (Some p)
      (after_events w
         (if IsRetired f
          then [EvLock;
                EvReportUsageError
                  (StrCat ["Accessing retired flag '"; name; "'"]) false;
                EvUnlock]
          else [EvLock; EvUnlock])).
Proof.
  intros Hne Hn Hp. unfold FindCommandLineFlag.
  rewrite bool_decide_eq_false_2 by done.
  unfold Lock, Unlock, emit. unfold mbind at 1 2, M_bind.
  erewrite FindFlagLocked_eq; [|exact Hn|exact Hp].
  unfold after_events, mbind, M_bind, mret, M_ret.
  destruct (IsRetired f); simpl; by rewrite <- !app_assoc.
Qed.

(** A retired descriptor registered under the empty name is not returned
    by [FindCommandLineFlag], and no warning is emitted. *)
Lemma FindCommandLineFlag_unnamed_tombstone :
  Retire "" (FlagOps "bool") 0 empty_world
    = Returns true unnamed_tombstone_world ∧
  flags_ unnamed_tombstone_world !! "" = Some 1%positive ∧
  IsRetired <$> heap unnamed_tombstone_world !! 1%positive = Some true ∧
  FindCommandLineFlag "" unnamed_tombstone_world
    = Returns None unnamed_tombstone_world.
Proof. repeat split; vm_compute; reflexivity. Qed.

(** C5, as the code has it: for a registered name whose descriptor is
    retired, [FindCommandLineFlag] returns the descriptor and emits exactly
    one non-fatal usage warning provided the name is not empty (the locked
    lookup [FindFlagLocked] does so for every name), and [FindRetiredFlag]
    returns the same descriptor and emits no warning; for a registered name
    whose descriptor is not retired, [FindRetiredFlag] returns none. *)
Theorem retired_lookup w name p f :
  flags_ w !! name = Some p →
  heap w !! p = Some f →
  (IsRetired f = true →
     (name ≠ "" →
        FindCommandLineFlag name w =
          Returns (Some p)
            (after_events w
               [EvLock;
                EvReportUsageError
                  (StrCat ["Accessing retired flag '"; name; "'"]) false;
                EvUnlock])) ∧
     FindFlagLocked name w =
       Returns (Some p)
         (after_events w
            [EvReportUsageError
               (StrCat ["Accessing retired flag '"; name; "'"]) false]) ∧
     FindRetiredFlag name w =
       Returns (Some p) (after_events w [EvLock; EvUnlock]) ∧
     FindRetiredFlagLocked name w = Returns (Some p) w) ∧
  (IsRetired f = false →
     FindRetiredFlag name w =
       Returns None (after_events w [EvLock; EvUnlock]) ∧
     FindRetiredFlagLocked name w = Returns None w).
Proof.
  intros Hn Hp.
  rewrite FindRetiredFlag_eq, FindRetiredFlagLocked_eq, Hn, Hp.
  rewrite (FindFlagLocked_eq w name p f Hn Hp).
  split; intros Hr; rewrite Hr; repeat split.
  intros Hne. rewrite (FindCommandLineFlag_eq w name p f Hne Hn Hp).
  by rewrite Hr.
Qed.

Lemma retired_lookup_witness :
  FindCommandLineFlag "legacy" sample_world =
    Returns (Some 2%positive)
      (after_events sample_world
         [EvLock;
          EvReportUsageError
            (StrCat ["Accessing retired flag '"; "legacy"; "'"]) false;
          EvUnlock]) ∧
  FindRetiredFlag "legacy" sample_world =
    Returns (Some 2%positive) (after_events sample_world [EvLock; EvUnlock]) ∧
  FindRetiredFlag "verbose" sample_world =
    Returns None (after_events sample_world [EvLock; EvUnlock]).
Proof.
  destruct (retired_lookup sample_world "legacy" 2 tombstone
              eq_refl eq_refl) as [Hretired _].
  destruct (Hretired eq_refl) as (Hfind & _ & Hfr & _).
  destruct (retired_lookup sample_world "verbose" 1 verbose_a
              eq_refl eq_refl) as [_ Hlive].
  destruct (Hlive eq_refl) as [Hnone _].
  split; [apply Hfind; discriminate|]. split; [exact Hfr|exact Hnone].
Defined.

(** [FindRetiredFlag] takes the lock for the empty name too, and returns
    the tombstone registered under it if there is one. *)
Lemma FindRetiredFlag_empty_name_locks :
  FindRetiredFlag "" empty_world
    = Returns None (mkWorld ∅ ∅ [EvLock; EvUnlock]) ∧
  FindRetiredFlag "" unnamed_tombstone_world
    = Returns (Some 1%positive)
        (after_events unnamed_tombstone_world [EvLock; EvUnlock]).
Proof. split; vm_compute; reflexivity. Qed.

(** C6, as the code has it: for the empty name [FindCommandLineFlag]
    returns none and leaves the world, its trace included, as it was: the
    lock is not taken.  [FindRetiredFlag] has no such test: for the empty
    name it takes and releases the lock around the retired-only lookup, and
    returns none unless a retired descriptor is registered under the empty
    name. *)
Theorem empty_name_lookup w :
  FindCommandLineFlag "" w = Returns None w ∧
  FindRetiredFlag "" w =
    match flags_ w !! "" with
    | None => Returns None (after_events w [EvLock; EvUnlock])
    | Some p =>
        match heap w !! p with
        | Some f => Returns (if IsRetired f then Some p else None)
                            (after_events w [EvLock; EvUnlock])
        | None => Undefined
        end
    end.
Proof. split; [reflexivity|apply FindRetiredFlag_eq]. Qed.

(** [IsRetiredFlag] fails its first assertion on the empty name. *)
Lemma IsRetiredFlag_empty_name_asserts :
  IsRetiredFlag "" (Some false) empty_world = AssertionFails empty_world.
Proof. reflexivity. Qed.

(** C7, as the code has it: for a name that is not empty (and an
    out-parameter that is not null), [IsRetiredFlag] returns false when the
    name is not registered as retired, and returns true and stores whether
    the type of the tombstone is [bool] when it is; it emits no warning:
    the only events are taking and releasing the lock.  For the empty name
    the assertion of its first line fails. *)
Theorem IsRetiredFlag_spec w name b0 :
  (∀ type_is_bool, IsRetiredFlag "" type_is_bool w = AssertionFails w) ∧
  (name ≠ "" → registry_valid w →
     ((∀ p f, flags_ w !! name = Some p → heap w !! p = Some f →
              IsRetired f = false) →
        IsRetiredFlag name (Some b0) w =
          Returns (false, Some b0) (after_events w [EvLock; EvUnlock])) ∧
     (∀ p f, flags_ w !! name = Some p → heap w !! p = Some f →
             IsRetired f = true →
        IsRetiredFlag name (Some b0) w =
          Returns (true, Some (IsOfType_bool f))
                  (after_events w [EvLock; EvUnlock]))).
Proof.
  split; [done|]. intros Hne Hvalid.
  assert (Hunfold : IsRetiredFlag name (Some b0) w =
            match FindRetiredFlag name w with
            | Returns None w' => Returns (false, Some b0) w'
            | Returns (Some p) w' =>
                match heap w' !! p with
                | Some f => Returns (true, Some (IsOfType_bool f)) w'
                | None => Undefined
                end
            | Exits status w' => Exits status w'
            | AssertionFails w' => AssertionFails w'
            | Undefined => Undefined
            end).
  { unfold IsRetiredFlag, assert.
    rewrite (bool_decide_eq_false_2 (name = "")) by done.
    rewrite (bool_decide_eq_true_2 (is_Some (Some b0))) by eauto.
    unfold mbind, M_bind, mret, M_ret, deref; simpl.
    destruct (FindRetiredFlag name w) as [[p|] w'| | |]; try done.
    by destruct (heap w' !! p). }
  rewrite Hunfold, FindRetiredFlag_eq.
  destruct (flags_ w !! name) as [p|] eqn:Hn.
  - destruct (Hvalid name p Hn) as [f Hp]. rewrite Hp. split.
    + intros Hlive. by rewrite (Hlive p f eq_refl Hp).
    + intros p' f' [= <-] Hp' Hr. rewrite Hp in Hp'. injection Hp' as <-.
      rewrite Hr; simpl. by rewrite Hp.
  - split; [done|]. intros p f [=].
Qed.

Lemma IsRetiredFlag_spec_witness :
  IsRetiredFlag "legacy" (Some true) sample_world =
    Returns (true, Some false) (after_events sample_world [EvLock; EvUnlock]) ∧
  IsRetiredFlag "verbose" (Some true) sample_world =
    Returns (false, Some true) (after_events sample_world [EvLock; EvUnlock]).
Proof.
  assert (Hvalid : registry_valid sample_world) by by_compute.
  destruct (IsRetiredFlag_spec sample_world "legacy" true) as [_ Hlegacy].
  destruct (Hlegacy ltac:(discriminate) Hvalid) as [_ Hretired].
  destruct (IsRetiredFlag_spec sample_world "verbose" true) as [_ Hverbose].
  destruct (Hverbose ltac:(discriminate) Hvalid) as [Hlive _].
  split.
  - apply (Hretired 2%positive tombstone); reflexivity.
  - apply Hlive. intros p f Hn Hp.
    vm_compute in Hn. injection Hn as <-.
    vm_compute in Hp. by injection Hp as <-.
Defined.

(** * Further properties of the registry *)

(** [RegisterFlag] on any world. *)
Lemma RegisterFlag_cases w flag :
  RegisterFlag flag w =
    match heap w !! flag with
    | None => Undefined
    | Some f =>
        match flags_ w !! Name f with
        | None =>
            Returns () (mkWorld (heap w) (<[Name f := flag]> (flags_ w))
                                (trace w ++ [EvLock; EvUnlock]))
        | Some old_flag =>
            match heap w !! old_flag with
            | None => Undefined
            | Some o =>
                if negb (eqb (IsRetired f) (IsRetired o)) then
                  fatal w (msg_retired_mismatch f o)
                else if negb (bool_decide (op_ f = op_ o)) then
                  fatal w (msg_type_mismatch f o)
                else if IsRetired o then
                  Returns () (mkWorld (delete flag (heap w)) (flags_ w)
                                      (trace w ++ [EvLock; EvUnlock]))
                else if negb (bool_decide (Filename o = Filename f)) then
                  fatal w (msg_location_mismatch f o)
                else
                  fatal w (msg_identical f)
            end
        end
    end.
Proof.
  destruct (heap w !! flag) as [f|] eqn:Hflag.
  - destruct (flags_ w !! Name f) as [old_flag|] eqn:Hentry.
    + destruct (heap w !! old_flag) as [o|] eqn:Hold.
      * exact (RegisterFlag_collision w flag old_flag f o Hflag Hentry Hold).
      * unfold RegisterFlag, FlagMap_insert, Lock, emit, deref, get_flags_,
          set_flags_, mbind, M_bind; simpl.
        rewrite Hflag; simpl. rewrite Hentry; simpl. by rewrite Hold.
    + exact (RegisterFlag_new w flag f Hflag Hentry).
  - unfold RegisterFlag, Lock, emit, deref, mbind, M_bind; simpl.
    by rewrite Hflag.
Qed.

(** X1: What [RegisterFlag] leaves alone: whether it returns or exits, no
    entry of the map is removed or rebound, the only entry that can appear
    is the incoming descriptor under its own name, and no object other than
    the incoming one is created, changed or deleted. *)
Theorem RegisterFlag_frame w flag w' :
  (RegisterFlag flag w = Returns () w' ∨
   ∃ status, RegisterFlag flag w = Exits status w') →
  (∀ n p, flags_ w !! n = Some p → flags_ w' !! n = Some p) ∧
  (∀ n p, flags_ w' !! n = Some p →
          flags_ w !! n = Some p ∨
          (p = flag ∧ Name <$> heap w !! flag = Some n)) ∧
  (∀ p, p ≠ flag → heap w' !! p = heap w !! p).
Proof.
  rewrite RegisterFlag_cases. unfold fatal, after_events.
  intros Hout.
  destruct (heap w !! flag) as [f|] eqn:Hflag;
    [|destruct Hout as [?|[? ?]]; done].
  destruct (flags_ w !! Name f) as [old_flag|] eqn:Hentry.
  - destruct (heap w !! old_flag) as [o|] eqn:Hold;
      [|destruct Hout as [?|[? ?]]; done].
    assert (Hw' : flags_ w' = flags_ w ∧
                  (heap w' = heap w ∨ heap w' = delete flag (heap w))).
    { repeat case_match; destruct Hout as [?|[? ?]]; simplify_eq; simpl;
        eauto. }
    destruct Hw' as [-> Hheap]. repeat split; eauto.
    intros p Hp. destruct Hheap as [->| ->]; [done|].
    by rewrite lookup_delete_ne.
  - destruct Hout as [?|[? ?]]; simplify_eq; simpl. repeat split.
    + intros n p Hn. rewrite lookup_insert_ne; [done|]. congruence.
    + intros n p Hn. destruct (decide (Name f = n)) as [<-|Hne].
      * rewrite lookup_insert_eq in Hn. right. by simplify_eq.
      * rewrite lookup_insert_ne in Hn by done. by left.
Qed.

(** The duplicate tombstone at address 3 of [sample_world]: the call
    returns, the map is as before, only the object at 3 is gone. *)
Lemma RegisterFlag_frame_witness :
  let w' := mkWorld (delete 3%positive (heap sample_world))
                    (flags_ sample_world) [EvLock; EvUnlock] in
  RegisterFlag 3 sample_world = Returns () w' ∧
  (∀ n p, flags_ sample_world !! n = Some p → flags_ w' !! n = Some p) ∧
  (∀ p, p ≠ 3%positive → heap w' !! p = heap sample_world !! p).
Proof.
  intros w'.
  assert (Hrun : RegisterFlag 3 sample_world = Returns () w')
    by (vm_compute; reflexivity).
  split; [exact Hrun|].
  destruct (RegisterFlag_frame sample_world 3 w' (or_introl Hrun))
    as (Hkeep & _ & Hheap).
  split; [exact Hkeep|exact Hheap].
Defined.

Lemma registry_consistent_valid w :
  registry_consistent w → registry_valid w.
Proof.
  intros Hc n p Hn. specialize (Hc n p Hn); simpl in Hc.
  destruct (heap w !! p); [eauto|done].
Qed.

Lemma Retire_cases w name ops marshalling_ops :
  Retire name ops marshalling_ops w =
    let p := fresh (dom (heap w)) in
    let t := RetiredFlagObj_new name ops marshalling_ops in
    let h := <[p := t]> (heap w) in
    match flags_ w !! name with
    | None =>
        Returns true (mkWorld h (<[name := p]> (flags_ w))
                              (trace w ++ [EvLock; EvUnlock]))
    | Some old_flag =>
        match h !! old_flag with
        | None => Undefined
        | Some o =>
            if negb (IsRetired o) then
              Exits 1 (mkWorld h (flags_ w)
                         (trace w ++ [EvLock;
                            EvReportUsageError (msg_retired_mismatch t o)
                                               true]))
            else if negb (bool_decide (ops = op_ o)) then
              Exits 1 (mkWorld h (flags_ w)
                         (trace w ++ [EvLock;
                            EvReportUsageError (msg_type_mismatch t o) true]))
            else
              Returns true (mkWorld (delete p h) (flags_ w)
                                    (trace w ++ [EvLock; EvUnlock]))
        end
    end.
Proof.
  rewrite Retire_unfold; simpl. rewrite RegisterFlag_cases; simpl.
  rewrite lookup_insert_eq; simpl.
  destruct (flags_ w !! name) as [old_flag|]; [|done].
  destruct (<[_ := _]> (heap w) !! old_flag) as [o|]; [|done].
  unfold fatal, after_events; simpl.
  destruct (IsRetired o); simpl; [|done].
  by destruct (bool_decide (ops = op_ o)).
Qed.

(** X2: The registry keeps its shape under registration: if every entry is
    filed under the name of its descriptor, this is still so after
    [RegisterFlag] has returned for a descriptor that is not already the
    one bound to its name, and after [Retire] has returned. *)
Theorem registration_keeps_consistency w :
  registry_consistent w →
  (∀ flag f w',
     heap w !! flag = Some f → flags_ w !! Name f ≠ Some flag →
     RegisterFlag flag w = Returns () w' → registry_consistent w') ∧
  (∀ name ops marshalling_ops w',
     Retire name ops marshalling_ops w = Returns true w' →
     registry_consistent w').
Proof.
  intros Hc. split.
  - intros flag f w' Hflag Hnot. rewrite RegisterFlag_cases, Hflag.
    unfold fatal.
    destruct (flags_ w !! Name f) as [old_flag|] eqn:Hentry.
    + destruct (heap w !! old_flag) as [o|]; [|done].
      intros Hrun. repeat case_match; simplify_eq.
      intros n p Hn; simpl in *.
      rewrite lookup_delete_ne; [by apply Hc|].
      intros <-. specialize (Hc n flag Hn); simpl in Hc.
      rewrite Hflag in Hc. by simplify_eq/=.
    + intros [= <-]. apply map_Forall_insert_2; simpl.
      * by rewrite Hflag.
      * exact Hc.
  - intros name ops m w'. rewrite Retire_cases; simpl.
    set (p := fresh (dom (heap w))).
    assert (Hp : heap w !! p = None) by apply fresh_unused.
    assert (Hkeep : ∀ n q, flags_ w !! n = Some q →
              Name <$> <[p := RetiredFlagObj_new name ops m]> (heap w) !! q
              = Some n).
    { intros n q Hn. specialize (Hc n q Hn); simpl in Hc.
      rewrite lookup_insert_ne; [done|]. intros <-. by rewrite Hp in Hc. }
    destruct (flags_ w !! name) as [old_flag|] eqn:Hentry.
    + destruct (_ !! old_flag) as [o|]; [|done].
      repeat case_match; intros [= <-].
      intros n q Hn; simpl in *.
      rewrite delete_insert_eq, delete_id by done. by apply Hc.
    + intros [= <-]. apply map_Forall_insert_2; simpl.
      * by rewrite lookup_insert_eq.
      * intros n q Hn. by apply Hkeep.
Qed.

Lemma registration_keeps_consistency_witness :
  registry_consistent sample_world ∧
  registry_consistent
    (mkWorld (delete 3%positive (heap sample_world)) (flags_ sample_world)
             [EvLock; EvUnlock]).
Proof.
  assert (Hc : registry_consistent sample_world) by by_compute.
  split; [exact Hc|].
  destruct (registration_keeps_consistency sample_world Hc) as [Hreg _].
  apply (Hreg 3%positive tombstone); [reflexivity|discriminate|].
  vm_compute. reflexivity.
Defined.

(** X3: What [Retire] does with a name, whatever the registry holds: a new
    name is bound to the new tombstone; a name bound to a live flag is
    fatal, and the diagnostic names the file of the live flag; a name bound
    to a tombstone of another type is fatal; a name bound to a tombstone of
    the same type leaves heap and registry as they were.  In the two fatal
    cases the new tombstone is still allocated when the process exits. *)
Theorem Retire_outcome w name ops marshalling_ops :
  registry_valid w →
  let p := fresh (dom (heap w)) in
  let t := RetiredFlagObj_new name ops marshalling_ops in
  (flags_ w !! name = None →
     Retire name ops marshalling_ops w =
       Returns true (mkWorld (<[p := t]> (heap w)) (<[name := p]> (flags_ w))
                             (trace w ++ [EvLock; EvUnlock]))) ∧
  (∀ old_flag o,
     flags_ w !! name = Some old_flag → heap w !! old_flag = Some o →
     (IsRetired o = false →
        Retire name ops marshalling_ops w =
          Exits 1 (mkWorld (<[p := t]> (heap w)) (flags_ w)
                     (trace w ++
                        [EvLock;
                         EvReportUsageError
                           (StrCat ["Retired flag '"; name;
                                    "' was defined normally in file '";
                                    Filename o; "'."]) true]))) ∧
     (IsRetired o = true → op_ o ≠ ops →
        Retire name ops marshalling_ops w =
          Exits 1 (mkWorld (<[p := t]> (heap w)) (flags_ w)
                     (trace w ++
                        [EvLock;
                         EvReportUsageError (msg_type_mismatch t o) true]))) ∧
     (IsRetired o = true → op_ o = ops →
        Retire name ops marshalling_ops w =
          Returns true (after_events w [EvLock; EvUnlock]))).
Proof.
  intros Hvalid p t. rewrite Retire_cases; simpl. fold p t.
  assert (Hp : heap w !! p = None) by apply fresh_unused.
  split.
  - by intros ->.
  - intros old_flag o Hentry Hold. rewrite Hentry.
    assert (Hne : p ≠ old_flag) by congruence.
    rewrite lookup_insert_ne, Hold by done.
    repeat split.
    + by intros ->.
    + intros -> Hop; simpl. by rewrite bool_decide_eq_false_2.
    + intros -> Hop; simpl. rewrite bool_decide_eq_true_2 by done; simpl.
      by rewrite delete_insert_eq, delete_id.
Qed.

(** Retiring "verbose", a live flag of [sample_world] defined in "a.cc". *)
Lemma Retire_outcome_witness :
  registry_valid sample_world ∧
  Retire "verbose" (FlagOps "bool") 0 sample_world =
    Exits 1 (mkWorld (<[5%positive :=
                          RetiredFlagObj_new "verbose" (FlagOps "bool") 0]>
                        (heap sample_world))
                     (flags_ sample_world)
                     [EvLock;
                      EvReportUsageError
                        "Retired flag 'verbose' was defined normally in file 'a.cc'."
                        true]).
Proof.
  assert (Hvalid : registry_valid sample_world) by by_compute.
  split; [exact Hvalid|].
  destruct (Retire_outcome sample_world "verbose" (FlagOps "bool") 0 Hvalid)
    as [_ Hbound].
  destruct (Hbound 1%positive verbose_a eq_refl eq_refl) as [Hlive _].
  exact (Hlive eq_refl).
Defined.

(** ** Lookup *)

Lemma FindCommandLineFlag_missing w name :
  name ≠ "" → flags_ w !! name = None →
  FindCommandLineFlag name w = Returns None (after_events w [EvLock; EvUnlock]).
Proof.
  intros Hne Hn. unfold FindCommandLineFlag.
  rewrite bool_decide_eq_false_2 by done.
  unfold FindFlagLocked, Lock, Unlock, emit, get_flags_, after_events,
    mbind, M_bind, mret, M_ret; simpl.
  rewrite Hn; simpl. by rewrite <- app_assoc.
Qed.

(** X4: Lookups only read: [FindCommandLineFlag] and [FindRetiredFlag] return,
    leave every object and the registry as they are, and add events only.
    [FindCommandLineFlag] yields the entry of the name (none for the empty
    name); the only usage error it can emit is the non-fatal warning for
    the name, and then the descriptor it returns is retired.
    [FindRetiredFlag] yields the entry if it is retired and emits no usage
    error. *)
Theorem lookups_only_read w name :
  registry_valid w →
  (∃ evs,
     FindCommandLineFlag name w =
       Returns (if bool_decide (name = "") then None else flags_ w !! name)
               (after_events w evs) ∧
     ∀ e, e ∈ evs → is_usage_error e = true →
          e = retired_warning name ∧
          ∃ p f, flags_ w !! name = Some p ∧ heap w !! p = Some f ∧
                 IsRetired f = true) ∧
  (∃ r,
     FindRetiredFlag name w = Returns r (after_events w [EvLock; EvUnlock]) ∧
     ∀ p, r = Some p ↔
          flags_ w !! name = Some p ∧
          ∃ f, heap w !! p = Some f ∧ IsRetired f = true).
Proof.
  intros Hvalid. split.
  - destruct (decide (name = "")) as [->|Hne].
    { exists []. split.
      - unfold after_events. rewrite app_nil_r. by destruct w.
      - intros e He. by inversion He. }
    rewrite bool_decide_eq_false_2 by done.
    destruct (flags_ w !! name) as [p|] eqn:Hn.
    + destruct (Hvalid name p Hn) as [f Hp].
      eexists. split; [exact (FindCommandLineFlag_eq w name p f Hne Hn Hp)|].
      intros e He Herr. destruct (IsRetired f) eqn:Hr.
      * split; [|eauto].
        repeat (apply elem_of_cons in He as [->|He]; try done).
        by inversion He.
      * repeat (apply elem_of_cons in He as [->|He]; try done).
        by inversion He.
    + eexists. split; [exact (FindCommandLineFlag_missing w name Hne Hn)|].
      intros e He Herr.
      repeat (apply elem_of_cons in He as [->|He]; try done).
      by inversion He.
  - rewrite FindRetiredFlag_eq.
    destruct (flags_ w !! name) as [p|] eqn:Hn.
    + destruct (Hvalid name p Hn) as [f Hp]. rewrite Hp.
      eexists. split; [reflexivity|].
      intros q. destruct (IsRetired f) eqn:Hr; split.
      * intros [= <-]. eauto.
      * by intros [[= <-] _].
      * done.
      * intros [[= <-] (f' & Hf' & Hr')]. congruence.
    + eexists. split; [reflexivity|]. intros q. split; [done|].
      by intros [? _].
Qed.

Lemma lookups_only_read_witness :
  registry_valid sample_world ∧
  ∃ evs,
    FindCommandLineFlag "verbose" sample_world =
      Returns (Some 1%positive) (after_events sample_world evs) ∧
    ∀ e, e ∈ evs → is_usage_error e = true →
         e = retired_warning "verbose" ∧
         ∃ p f, flags_ sample_world !! "verbose" = Some p ∧
                heap sample_world !! p = Some f ∧ IsRetired f = true.
Proof.
  assert (Hvalid : registry_valid sample_world) by by_compute.
  split; [exact Hvalid|].
  destruct (lookups_only_read sample_world "verbose" Hvalid) as [Hfind _].
  exact Hfind.
Defined.

(** X5: Registration followed by lookup: once [RegisterCommandLineFlag] has
    registered a descriptor under a new name that is not empty,
    [FindCommandLineFlag] on that name returns this very descriptor (with
    the usage warning if and only if it is retired), and [FindRetiredFlag]
    returns it if and only if it is retired. *)
Theorem register_then_find w flag f :
  heap w !! flag = Some f →
  flags_ w !! Name f = None →
  Name f ≠ "" →
  let registered evs :=
    mkWorld (heap w) (<[Name f := flag]> (flags_ w)) (trace w ++ evs) in
  (RegisterCommandLineFlag flag ≫= λ _, FindCommandLineFlag (Name f)) w =
    Returns (Some flag)
      (registered
         ([EvLock; EvUnlock; EvLock] ++
          (if IsRetired f then [retired_warning (Name f)] else []) ++
          [EvUnlock])%list) ∧
  (RegisterCommandLineFlag flag ≫= λ _, FindRetiredFlag (Name f)) w =
    Returns (if IsRetired f then Some flag else None)
      (registered [EvLock; EvUnlock; EvLock; EvUnlock]).
Proof.
  intros Hflag Hnew Hne registered. subst registered.
  unfold mbind, M_bind.
  rewrite RegisterCommandLineFlag_unfold, (RegisterFlag_new w flag f Hflag Hnew).
  set (w1 := mkWorld _ _ _).
  split.
  - rewrite (FindCommandLineFlag_eq w1 (Name f) flag f Hne);
      [|apply lookup_insert_eq|exact Hflag].
    unfold after_events, retired_warning; simpl.
    destruct (IsRetired f); simpl; by rewrite <- app_assoc.
  - rewrite FindRetiredFlag_eq; simpl.
    rewrite lookup_insert_eq, Hflag.
    unfold after_events; simpl. by rewrite <- app_assoc.
Qed.

(** The unregistered descriptor at address 4 with the name changed to
    "quiet", a name that is new in [sample_world]. *)
Lemma register_then_find_witness :
  let w := mkWorld (<[4%positive :=
                        mkFlag (OrdinaryFlag true) "quiet" None "b.cc"
                               (FlagOps "bool") 7 None None (Some "true")]>
                      (heap sample_world))
                   (flags_ sample_world) [] in
  (RegisterCommandLineFlag 4 ≫= λ _, FindCommandLineFlag "quiet") w =
    Returns (Some 4%positive)
      (mkWorld (heap w) (<["quiet" := 4%positive]> (flags_ w))
               [EvLock; EvUnlock; EvLock; EvUnlock]).
Proof.
  intros w.
  apply (register_then_find w 4
           (mkFlag (OrdinaryFlag true) "quiet" None "b.cc"
                   (FlagOps "bool") 7 None None (Some "true")));
    [reflexivity|reflexivity|discriminate].
Defined.

(** ** Retirement seen through [IsRetiredFlag] *)

(** X6: Retirement followed by the query: after [Retire] of a new name that is
    not empty, [IsRetiredFlag] on that name returns true and stores whether
    the retired type is [bool]. *)
Theorem retire_then_is_retired w name ops marshalling_ops b0 :
  name ≠ "" →
  flags_ w !! name = None →
  ∃ w',
    (Retire name ops marshalling_ops ≫=
       λ _, IsRetiredFlag name (Some b0)) w =
      Returns (true, Some (bool_decide (ops = FlagOps "bool"))) w' ∧
    heap w' = <[fresh (dom (heap w)) :=
                  RetiredFlagObj_new name ops marshalling_ops]> (heap w) ∧
    flags_ w' = <[name := fresh (dom (heap w))]> (flags_ w) ∧
    trace w' = (trace w ++ [EvLock; EvUnlock; EvLock; EvUnlock])%list.
Proof.
  intros Hne Hnew. unfold mbind at 1, M_bind.
  rewrite Retire_cases; simpl. rewrite Hnew.
  unfold IsRetiredFlag, assert.
  rewrite (bool_decide_eq_false_2 (name = "")) by done.
  rewrite (bool_decide_eq_true_2 (is_Some (Some b0))) by eauto.
  unfold mbind at 1 2, M_bind; simpl.
  rewrite FindRetiredFlag_eq; simpl.
  rewrite !lookup_insert_eq; simpl.
  unfold mbind, M_bind, mret, M_ret, deref; simpl.
  rewrite lookup_insert_eq.
  eexists. split; [reflexivity|]; simpl. repeat split.
  by rewrite <- app_assoc.
Qed.

Lemma retire_then_is_retired_witness :
  ∃ w',
    (Retire "verbose" (FlagOps "bool") 0 ≫=
       λ _, IsRetiredFlag "verbose" (Some false)) empty_world =
      Returns (true, Some true) w' ∧
    heap w' = <[fresh (dom (heap empty_world)) :=
                  RetiredFlagObj_new "verbose" (FlagOps "bool") 0]>
                (heap empty_world) ∧
    flags_ w' = <["verbose" := fresh (dom (heap empty_world))]>
                  (flags_ empty_world) ∧
    trace w' = (trace empty_world ++ [EvLock; EvUnlock; EvLock; EvUnlock])%list.
Proof.
  apply (retire_then_is_retired empty_world "verbose" (FlagOps "bool") 0 false);
    [discriminate|reflexivity].
Defined.

(** X7: The out-parameter of [IsRetiredFlag] may be null only when the name is
    not retired: for a name that is not empty, a null [type_is_bool] makes
    the second assertion fail (after the lookup, with the lock released)
    when the name is retired, and is left alone when it is not. *)
Theorem IsRetiredFlag_null_out w name :
  name ≠ "" →
  registry_valid w →
  (∀ p f, flags_ w !! name = Some p → heap w !! p = Some f →
          IsRetired f = true →
          IsRetiredFlag name None w =
            AssertionFails (after_events w [EvLock; EvUnlock])) ∧
  ((∀ p f, flags_ w !! name = Some p → heap w !! p = Some f →
           IsRetired f = false) →
   IsRetiredFlag name None w =
     Returns (false, None) (after_events w [EvLock; EvUnlock])).
Proof.
  intros Hne Hvalid.
  assert (Hunfold : IsRetiredFlag name None w =
            match FindRetiredFlag name w with
            | Returns None w' => Returns (false, None) w'
            | Returns (Some p) w' => AssertionFails w'
            | Exits status w' => Exits status w'
            | AssertionFails w' => AssertionFails w'
            | Undefined => Undefined
            end).
  { unfold IsRetiredFlag, assert.
    rewrite (bool_decide_eq_false_2 (name = "")) by done.
    rewrite (bool_decide_eq_false_2 (is_Some (@None bool)))
      by (intros [? ?]; done).
    unfold mbind, M_bind, mret, M_ret; simpl.
    by destruct (FindRetiredFlag name w) as [[p|] w'| | |]. }
  rewrite Hunfold, FindRetiredFlag_eq.
  destruct (flags_ w !! name) as [p|] eqn:Hn.
  - destruct (Hvalid name p Hn) as [f Hp]. rewrite Hp. split.
    + intros p' f' [= <-] Hp' Hr. rewrite Hp in Hp'. injection Hp' as <-.
      by rewrite Hr.
    + intros Hlive. by rewrite (Hlive p f eq_refl Hp).
  - split; [|done]. intros p f [=].
Qed.

Lemma IsRetiredFlag_null_out_witness :
  registry_valid sample_world ∧
  IsRetiredFlag "legacy" None sample_world =
    AssertionFails (after_events sample_world [EvLock; EvUnlock]).
Proof.
  assert (Hvalid : registry_valid sample_world) by by_compute.
  split; [exact Hvalid|].
  destruct (IsRetiredFlag_null_out sample_world "legacy"
              ltac:(discriminate) Hvalid) as [Hretired _].
  apply (Hretired 2%positive tombstone); reflexivity.
Defined.

(** ** Enumeration *)









(** ** More on snapshots *)

Lemma FlagMap_values_NoDup w :
  registry_consistent w → NoDup (FlagMap_values (flags_ w)).
Proof.
  intros Hc. unfold FlagMap_values.
  rewrite merge_sort_Permutation.
  apply NoDup_fmap_2_strong; [|apply NoDup_map_to_list].
  intros [n1 p1] [n2 p2] H1%elem_of_map_to_list H2%elem_of_map_to_list;
    simpl.
  intros <-. pose proof (Hc n1 p1 H1) as E1. pose proof (Hc n2 p1 H2) as E2.
  simpl in *. congruence.
Qed.

Lemma length_FlagMap_values (m : gmap string positive) :
  length (FlagMap_values m) = size m.
Proof.
  unfold FlagMap_values.
  by rewrite length_fmap, merge_sort_Permutation, length_map_to_list.
Qed.

Lemma captured_targets h (ps : list positive) :
  flag_ <$> omap (capsule_of h) ps =
    filter (λ p, is_Some (capsule_of h p)) ps.
Proof.
  induction ps as [|p ps IH]; [done|]. simpl.
  change (list_omap positive FlagState (capsule_of h) ps)
    with (omap (capsule_of h) ps).
  destruct (capsule_of h p) as [st|] eqn:Hcap.
  - rewrite filter_cons_True by (rewrite Hcap; eauto).
    rewrite fmap_cons, IH. f_equal.
    unfold capsule_of in Hcap. destruct (h !! p) as [f|]; [|done].
    simpl in Hcap. destruct (dyn_class f) as [[]|]; by simplify_eq.
  - rewrite filter_cons_False; [done|]. rewrite Hcap. by intros [? ?].
Qed.

(** X9: The shape of a snapshot: on a registry in which every entry is filed
    under the name of its descriptor, [SaveFromRegistry] on a new object
    takes the lock once, changes no object and no entry, and stores exactly
    one capsule for each registered ordinary descriptor that saves its
    state, and none for any other descriptor. *)
Theorem snapshot_shape w :
  registry_consistent w →
  ∃ this,
    SaveFromRegistry (mkFlagSaverImpl []) w =
      Returns this (after_events w [EvLock; EvUnlock]) ∧
    NoDup (flag_ <$> backup_registry_ this) ∧
    (∀ p, p ∈ flag_ <$> backup_registry_ this ↔
          ∃ n f, flags_ w !! n = Some p ∧ heap w !! p = Some f ∧
                 dyn_class f = OrdinaryFlag true) ∧
    (length (backup_registry_ this) ≤ size (flags_ w))%nat.
Proof.
  intros Hc. eexists.
  split; [exact (SaveFromRegistry_fresh w (registry_consistent_valid w Hc))|].
  simpl. split; [|split].
  - rewrite captured_targets. apply NoDup_filter.
    by apply FlagMap_values_NoDup.
  - intros p. rewrite list_elem_of_fmap. split.
    + intros (st & -> & (f & [n Hn]%FlagMap_values_elem & Hp & Hcl & _)
                           %elem_of_captured).
      eauto.
    + intros (n & f & Hn & Hp & Hcl). exists (mkFlagState p (cur_ f)).
      split; [done|]. apply elem_of_captured. exists f; simpl.
      repeat split; try done. apply FlagMap_values_elem. eauto.
  - rewrite <- (length_fmap flag_), captured_targets.
    rewrite <- length_FlagMap_values. apply length_filter.
Qed.

Lemma snapshot_shape_witness :
  registry_consistent sample_world ∧
  ∃ this,
    SaveFromRegistry (mkFlagSaverImpl []) sample_world =
      Returns this (after_events sample_world [EvLock; EvUnlock]) ∧
    NoDup (flag_ <$> backup_registry_ this) ∧
    (∀ p, p ∈ flag_ <$> backup_registry_ this ↔
          ∃ n f, flags_ sample_world !! n = Some p ∧
                 heap sample_world !! p = Some f ∧
                 dyn_class f = OrdinaryFlag true) ∧
    (length (backup_registry_ this) ≤ size (flags_ sample_world))%nat.
Proof.
  assert (Hc : registry_consistent sample_world) by by_compute.
  split; [exact Hc|]. exact (snapshot_shape sample_world Hc).
Defined.

(** Two descriptors that differ at most in the value they hold. *)
Lemma set_cur_id f : set_cur f (cur_ f) = f.
Proof. by destruct f. Qed.

Lemma restore_all_frame states : ∀ w w',
  restore_all states w = Returns () w' →
  flags_ w' = flags_ w ∧ trace w' = trace w ∧
  ∀ p, match heap w !! p, heap w' !! p with
       | Some f, Some f' => f' = set_cur f (cur_ f')
       | None, None => True
       | _, _ => False
       end.
Proof.
  induction states as [|st rest IH]; intros w w'; simpl.
  - intros [= <-]. repeat split. intros p.
    destruct (heap w !! p) as [f|]; [|done]. by rewrite set_cur_id.
  - unfold Restore, deref, store. unfold mbind at 1 2, M_bind.
    destruct (heap w !! flag_ st) as [f|] eqn:Hf; [|done].
    intros Hrun. apply IH in Hrun as (Hflags & Htrace & Hheap); simpl in *.
    repeat split; try done.
    intros p. specialize (Hheap p).
    destruct (decide (flag_ st = p)) as [<-|Hne].
    + rewrite lookup_insert_eq in Hheap. rewrite Hf.
      destruct (heap w' !! flag_ st) as [f'|]; [|done].
      by rewrite Hheap, set_cur_set_cur.
    + by rewrite lookup_insert_ne in Hheap.
Qed.

(** X10: What a restore leaves alone: when [RestoreToRegistry] returns, for
    whatever backup set and from whatever world, the registry map and the
    trace are as before (the lock is not taken), no object has been created
    or deleted, and an object differs from what it was at most in the value
    it holds; in particular a consistent registry stays consistent. *)
Theorem restore_frame this w w' :
  RestoreToRegistry this w = Returns () w' →
  flags_ w' = flags_ w ∧ trace w' = trace w ∧
  dom (heap w') = dom (heap w) ∧
  (∀ p f', heap w' !! p = Some f' →
           ∃ f, heap w !! p = Some f ∧ f' = set_cur f (cur_ f')) ∧
  (registry_consistent w → registry_consistent w').
Proof.
  intros (Hflags & Htrace & Hheap)%restore_all_frame.
  repeat split; try done.
  - apply set_eq. intros p. rewrite !elem_of_dom. specialize (Hheap p).
    destruct (heap w !! p), (heap w' !! p); try done;
      split; intros [? ?]; eauto; done.
  - intros p f' Hp. specialize (Hheap p). rewrite Hp in Hheap.
    destruct (heap w !! p) as [f|]; [eauto|done].
  - intros Hc n p Hn; simpl. rewrite Hflags in Hn.
    specialize (Hc n p Hn); simpl in Hc. specialize (Hheap p).
    destruct (heap w !! p) as [f|], (heap w' !! p) as [f'|]; try done.
    rewrite Hheap. by destruct f.
Qed.

(** Restoring "verbose" in [sample_mutated] gives [sample_world] back. *)
Lemma restore_frame_witness :
  RestoreToRegistry (mkFlagSaverImpl [mkFlagState 1 (Some "false")])
    sample_mutated = Returns () sample_world ∧
  flags_ sample_world = flags_ sample_mutated ∧
  trace sample_world = trace sample_mutated ∧
  dom (heap sample_world) = dom (heap sample_mutated).
Proof.
  assert (Hrun : RestoreToRegistry
                   (mkFlagSaverImpl [mkFlagState 1 (Some "false")])
                   sample_mutated = Returns () sample_world)
    by (vm_compute; reflexivity).
  split; [exact Hrun|].
  destruct (restore_frame _ _ _ Hrun) as (H1 & H2 & H3 & _).
  by repeat split.
Defined.

(** Writing back what the descriptors already hold changes nothing. *)
Lemma restore_all_same states : ∀ w,
  (∀ st, st ∈ states →
         ∃ f, heap w !! flag_ st = Some f ∧ cur_ f = cur_value_ st) →
  restore_all states w = Returns () w.
Proof.
  induction states as [|st rest IH]; intros w Hall; simpl; [done|].
  destruct (Hall st) as (f & Hf & Hv); [by left|].
  unfold Restore, deref, store. unfold mbind at 1 2, M_bind.
  rewrite Hf, <- Hv, set_cur_id, insert_id by done.
  replace (mkWorld (heap w) (flags_ w) (trace w)) with w by by destruct w.
  apply IH. intros st' Hst'. apply Hall. by right.
Qed.

(** X11: Restoring a snapshot is a no-op when nothing has changed, and is
    idempotent: a snapshot taken in [w] and restored straight away leaves
    the world as it is; restored in any later world [w'] (in which the
    captured descriptors exist), a second restore changes nothing more. *)
Theorem restore_idempotent w :
  registry_valid w →
  ∃ this w1,
    SaveFromRegistry (mkFlagSaverImpl []) w = Returns this w1 ∧
    RestoreToRegistry this w1 = Returns () w1 ∧
    ∀ w', targets_exist (backup_registry_ this) w' →
      ∃ w'', RestoreToRegistry this w' = Returns () w'' ∧
             RestoreToRegistry this w'' = Returns () w''.
Proof.
  intros Hvalid. eexists _, _.
  split; [exact (SaveFromRegistry_fresh w Hvalid)|].
  unfold RestoreToRegistry; simpl. split.
  - apply restore_all_same; simpl.
    intros st (f & _ & Hp & _ & Hv)%elem_of_captured. eauto.
  - intros w' Hall.
    destruct (restore_all_spec _ w' Hall) as (w'' & Hrun & _ & _ & _ & Hsame).
    exists w''. split; [done|].
    apply restore_all_same. intros st Hst.
    pose proof Hst as (f & _ & Hp & _ & Hv)%elem_of_captured.
    destruct (Hsame (flag_ st) (cur_value_ st)) as (f' & _ & Hres).
    + apply list_elem_of_fmap. eauto.
    + intros st' Hst' Hfl. rewrite Hv.
      eapply captured_uniform; [exact Hp|exact Hst'|exact Hfl].
    + eauto.
Qed.

Lemma restore_idempotent_witness :
  registry_valid sample_world ∧
  ∃ w'',
    RestoreToRegistry (mkFlagSaverImpl [mkFlagState 1 (Some "false")])
      sample_mutated = Returns () w'' ∧
    RestoreToRegistry (mkFlagSaverImpl [mkFlagState 1 (Some "false")]) w''
      = Returns () w''.
Proof.
  assert (Hvalid : registry_valid sample_world) by by_compute.
  split; [exact Hvalid|].
  destruct (restore_idempotent sample_world Hvalid)
    as (this & w1 & Hsave & _ & Hlater).
  rewrite (SaveFromRegistry_fresh _ Hvalid) in Hsave.
  injection Hsave as <- <-.
  apply (Hlater sample_mutated). by_compute.
Defined.

(** * Random bits to floating point *)

Local Open Scope Z_scope.

Lemma land_disjoint a m k :
  0 ≤ k → 0 ≤ m < 2 ^ k → Z.land (a * 2 ^ k) m = 0.
Proof.
  intros Hk Hm. apply Z.bits_inj'. intros n Hn.
  rewrite Z.land_spec, Z.bits_0.
  destruct (decide (n < k)) as [Hlt|Hge].
  - by rewrite Z.mul_pow2_bits_low.
  - destruct (decide (m = 0)) as [->|Hm0];
      [by rewrite Z.bits_0, andb_false_r|].
    rewrite (Z.bits_above_log2 m n); [apply andb_false_r|lia|].
    assert (Z.log2 m < k) by (apply Z.log2_lt_pow2; lia). lia.
Qed.

Lemma lor_disjoint a m k :
  0 ≤ k → 0 ≤ m < 2 ^ k → Z.lor (a * 2 ^ k) m = a * 2 ^ k + m.
Proof.
  intros Hk Hm. pose proof (land_disjoint a m k Hk Hm) as Hd.
  rewrite <- Z.lxor_lor by done. symmetry. by apply Z.add_nocarry_lxor.
Qed.

Lemma land_sign_bit bits :
  0 ≤ bits < 2 ^ 64 →
  Z.land bits 0x8000000000000000 = bits / 2 ^ 63 * 2 ^ 63.
Proof.
  intros Hb. change 0x8000000000000000 with (1 * 2 ^ 63).
  destruct (decide (bits < 2 ^ 63)) as [Hlt|Hge].
  - rewrite Z.div_small by lia. rewrite Z.land_comm.
    apply land_disjoint; lia.
  - assert (Hd : bits / 2 ^ 63 = 1).
    { symmetry. apply Z.div_unique with (r := bits - 2 ^ 63); lia. }
    rewrite Hd.
    replace bits with (1 * 2 ^ 63 + (bits - 2 ^ 63)) at 1 by lia.
    rewrite <- lor_disjoint by lia.
    rewrite Z.land_lor_distr_l, Z.land_diag.
    rewrite (Z.land_comm (bits - 2 ^ 63)), land_disjoint by lia.
    apply Z.lor_0_r.
Qed.

Lemma land_magnitude bits :
  Z.land bits 0x7FFFFFFFFFFFFFFF = bits mod 2 ^ 63.
Proof.
  change 0x7FFFFFFFFFFFFFFF with (Z.ones 63). by apply Z.land_ones.
Qed.

(** A left shift that brings the leading one of [x] to bit 63. *)
Lemma normalised x c :
  0 ≤ c ≤ 63 → 2 ^ (63 - c) ≤ x < 2 ^ (64 - c) →
  2 ^ 63 ≤ x * 2 ^ c < 2 ^ 64.
Proof.
  intros Hc [Hlo Hhi].
  replace (2 ^ 63) with (2 ^ (63 - c) * 2 ^ c)
    by (rewrite <- Z.pow_add_r by lia; f_equal; lia).
  replace (2 ^ 64) with (2 ^ (64 - c) * 2 ^ c)
    by (rewrite <- Z.pow_add_r by lia; f_equal; lia).
  assert (0 < 2 ^ c) by (apply Z.pow_pos_nonneg; lia). nia.
Qed.

(** [clz] stands for [base_internal::CountLeadingZeros64]; the two
    hypotheses are its contract: 64 for the word 0, and otherwise the
    number of zero bits above the leading one of a 64-bit word. *)
Section RandU64To_properties.
Variable clz : Z → Z.
Hypothesis clz_zero : clz 0 = 64.
Hypothesis clz_spec : ∀ n, 0 < n < 2 ^ 64 →
  0 ≤ clz n ≤ 63 ∧ 2 ^ (63 - clz n) ≤ n < 2 ^ (64 - clz n).

Lemma magnitude_range Signed bits :
  0 ≤ bits < 2 ^ 64 → 0 ≤ magnitude Signed bits < 2 ^ 64.
Proof.
  intros Hb. destruct Signed; simpl; try lia.
  pose proof (Z.mod_pos_bound bits (2 ^ 63)). lia.
Qed.

Lemma sign_bit_range Signed bits :
  0 ≤ bits < 2 ^ 64 → 0 ≤ sign_bit Signed bits ≤ 1.
Proof.
  intros Hb. destruct Signed; simpl; try lia.
  split; [apply Z.div_pos; lia|].
  assert (bits / 2 ^ 63 < 2); [|lia].
  apply Z.div_lt_upper_bound; lia.
Qed.

(** The double the code assembles from sign [s], exponent [e] and the
    shifted word [y]. *)
Lemma pack_double s e y :
  0 ≤ s ≤ 1 → 0 ≤ e < 2 ^ 11 → 0 ≤ y < 2 ^ 64 →
  Z.lor (Z.lor (s * 2 ^ 63) (u64 (Z.shiftl e 52)))
        (Z.land (Z.shiftr y 11) (u64 (Z.shiftl 1 52) - 1))
  = s * 2 ^ 63 + e * 2 ^ 52 + (y / 2 ^ 11) mod 2 ^ 52.
Proof.
  intros Hs He Hy. unfold u64.
  rewrite !Z.shiftl_mul_pow2, Z.shiftr_div_pow2 by lia.
  rewrite (Z.mod_small (e * 2 ^ 52)) by lia.
  change (1 * 2 ^ 52 mod 2 ^ 64 - 1) with (Z.ones 52).
  rewrite Z.land_ones by lia.
  pose proof (Z.mod_pos_bound (y / 2 ^ 11) (2 ^ 52)).
  rewrite (lor_disjoint s (e * 2 ^ 52) 63) by lia.
  replace (s * 2 ^ 63 + e * 2 ^ 52) with ((e + s * 2 ^ 11) * 2 ^ 52) by lia.
  rewrite lor_disjoint by lia. lia.
Qed.

(** The word [RandU64ToDouble] assembles for a magnitude that is not
    zero. *)
Lemma RandU64ToDouble_layout Signed IncludeZero ExponentBias bits :
  0 ≤ bits < 2 ^ 64 →
  magnitude Signed bits ≠ 0 →
  let x := magnitude Signed bits in
  let e := exponent_base Signed 1023 + ExponentBias - clz x in
  0 ≤ e < 2 ^ 11 →
  RandU64ToDouble clz Signed IncludeZero ExponentBias bits =
    sign_bit Signed bits * 2 ^ 63 + e * 2 ^ 52 +
    (x * 2 ^ clz x / 2 ^ 11 - 2 ^ 52) ∧
  0 ≤ x * 2 ^ clz x / 2 ^ 11 - 2 ^ 52 < 2 ^ 52.
Proof.
  intros Hb Hx0 x e He.
  pose proof (magnitude_range Signed bits Hb) as Hx. fold x in Hx, Hx0.
  destruct (clz_spec x) as [Hc Hxc]; [lia|].
  pose proof (normalised x (clz x) Hc Hxc) as Hn.
  assert (Hy : 2 ^ 52 ≤ x * 2 ^ clz x / 2 ^ 11 < 2 ^ 53).
  { split; [apply Z.div_le_lower_bound; lia
           |apply Z.div_lt_upper_bound; lia]. }
  split; [|lia].
  assert (Hcore :
    Z.lor (Z.lor (sign_bit Signed bits * 2 ^ 63)
                 (u64 (Z.shiftl (u64 (exponent_base Signed 1023
                                      + u64 (ExponentBias - clz x))) 52)))
          (Z.land (Z.shiftr (u64 (Z.shiftl x
                     (if IncludeZero then clz x else Z.land (clz x) 63))) 11)
                  (u64 (Z.shiftl 1 52) - 1))
    = sign_bit Signed bits * 2 ^ 63 + e * 2 ^ 52 +
      (x * 2 ^ clz x / 2 ^ 11 - 2 ^ 52)).
  { assert (Hshift : (if IncludeZero then clz x else Z.land (clz x) 63)
                     = clz x).
    { destruct IncludeZero; [done|].
      change 63 with (Z.ones 6). rewrite Z.land_ones by lia.
      apply Z.mod_small. lia. }
    rewrite Hshift.
    assert (Hexp : u64 (exponent_base Signed 1023
                        + u64 (ExponentBias - clz x)) = e).
    { unfold u64. rewrite Zplus_mod_idemp_r.
      replace (exponent_base Signed 1023 + (ExponentBias - clz x)) with e
        by (unfold e; lia).
      apply Z.mod_small. lia. }
    rewrite Hexp.
    assert (Hword : u64 (Z.shiftl x (clz x)) = x * 2 ^ clz x).
    { unfold u64. rewrite Z.shiftl_mul_pow2 by lia.
      apply Z.mod_small. lia. }
    rewrite Hword.
    rewrite pack_double;
      [|by apply sign_bit_range|lia|lia].
    replace ((x * 2 ^ clz x / 2 ^ 11) mod 2 ^ 52)
      with (x * 2 ^ clz x / 2 ^ 11 - 2 ^ 52); [done|].
    apply Z.mod_unique with (q := 1); lia. }
  rewrite <- Hcore. unfold RandU64ToDouble.
  assert (Hnz : (IncludeZero && (x =? 0)) = false).
  { rewrite andb_false_iff. right. by apply Z.eqb_neq. }
  destruct Signed; simpl in *; fold x.
  - rewrite Hnz. reflexivity.
  - rewrite Hnz. reflexivity.
  - rewrite land_magnitude, land_sign_bit by done. fold x.
    rewrite Hnz. reflexivity.
Qed.

(** The word [RandU64ToDouble] assembles for a magnitude that is zero when
    zero is not to be returned. *)
Lemma RandU64ToDouble_layout_zero Signed ExponentBias bits :
  0 ≤ bits < 2 ^ 64 →
  magnitude Signed bits = 0 →
  let e := exponent_base Signed 1023 + ExponentBias - 64 in
  0 ≤ e < 2 ^ 11 →
  RandU64ToDouble clz Signed false ExponentBias bits =
    sign_bit Signed bits * 2 ^ 63 + e * 2 ^ 52.
Proof.
  intros Hb Hx0 e He.
  assert (Hcore :
    Z.lor (Z.lor (sign_bit Signed bits * 2 ^ 63)
                 (u64 (Z.shiftl (u64 (exponent_base Signed 1023
                                      + u64 (ExponentBias - clz 0))) 52)))
          (Z.land (Z.shiftr (u64 (Z.shiftl 0 (Z.land (clz 0) 63))) 11)
                  (u64 (Z.shiftl 1 52) - 1))
    = sign_bit Signed bits * 2 ^ 63 + e * 2 ^ 52).
  { rewrite clz_zero.
    assert (Hexp : u64 (exponent_base Signed 1023 + u64 (ExponentBias - 64))
                   = e).
    { unfold u64. rewrite Zplus_mod_idemp_r.
      replace (exponent_base Signed 1023 + (ExponentBias - 64)) with e
        by (unfold e; lia).
      apply Z.mod_small. lia. }
    rewrite Hexp. rewrite Z.shiftl_0_l. change (u64 0) with 0.
    rewrite pack_double; [|by apply sign_bit_range|lia|lia].
    change (0 / 2 ^ 11) with 0. rewrite Z.mod_0_l by lia. lia. }
  rewrite <- Hcore. unfold RandU64ToDouble.
  destruct Signed; simpl in *.
  - by rewrite Hx0.
  - by rewrite Hx0.
  - by rewrite land_magnitude, land_sign_bit, Hx0.
Qed.

(** The three fields of a word laid out as sign, exponent, mantissa. *)
Lemma double_fields s e m :
  0 ≤ s ≤ 1 → 0 ≤ e < 2 ^ 11 → 0 ≤ m < 2 ^ 52 →
  let val := s * 2 ^ 63 + e * 2 ^ 52 + m in
  val / 2 ^ 63 = s ∧ (val / 2 ^ 52) mod 2 ^ 11 = e ∧ val mod 2 ^ 52 = m.
Proof.
  intros Hs He Hm val. subst val. repeat split.
  - symmetry. apply Z.div_unique with (r := e * 2 ^ 52 + m); lia.
  - replace (s * 2 ^ 63 + e * 2 ^ 52 + m)
      with ((s * 2 ^ 11 + e) * 2 ^ 52 + m) by lia.
    rewrite Z.div_add_l, (Z.div_small m) by lia.
    rewrite Z.add_0_r. symmetry.
    apply Z.mod_unique with (q := s); lia.
  - symmetry. apply Z.mod_unique with (q := s * 2 ^ 11 + e); lia.
Qed.

(** X12: How the result of [RandU64ToDouble] is laid out: for an input whose
    magnitude is not zero and an [ExponentBias] that keeps the exponent in
    its 11 bits, the sign bit is the one the [Signed] parameter selects,
    the exponent field is the starting exponent plus the bias minus the
    number of leading zeros, and the mantissa field holds the 52 bits that
    follow the leading one of the magnitude. *)
Theorem RandU64ToDouble_fields Signed IncludeZero ExponentBias bits :
  0 ≤ bits < 2 ^ 64 →
  magnitude Signed bits ≠ 0 →
  let x := magnitude Signed bits in
  let e := exponent_base Signed 1023 + ExponentBias - clz x in
  0 ≤ e < 2 ^ 11 →
  let val := RandU64ToDouble clz Signed IncludeZero ExponentBias bits in
  val / 2 ^ 63 = sign_bit Signed bits ∧
  (val / 2 ^ 52) mod 2 ^ 11 = e ∧
  val mod 2 ^ 52 = (x * 2 ^ clz x / 2 ^ 11) mod 2 ^ 52 ∧
  2 ^ 63 ≤ x * 2 ^ clz x < 2 ^ 64.
Proof.
  intros Hb Hx0 x e He val.
  destruct (RandU64ToDouble_layout Signed IncludeZero ExponentBias bits
              Hb Hx0 He) as [Hval Hm].
  fold x e val in Hval, Hm.
  destruct (double_fields (sign_bit Signed bits) e
              (x * 2 ^ clz x / 2 ^ 11 - 2 ^ 52))
    as (Hs & Hexp & Hman); [by apply sign_bit_range|done|done|].
  rewrite <- Hval in Hs, Hexp, Hman.
  split; [done|]. split; [done|]. split.
  - rewrite Hman. apply Z.mod_unique with (q := 1); lia.
  - pose proof (magnitude_range Signed bits Hb) as Hx. fold x in Hx, Hx0.
    destruct (clz_spec x) as [Hc Hxc]; [lia|].
    by apply normalised.
Qed.

(** X13: [RandU64ToDouble] and zero: with [IncludeZero] an input whose magnitude
    is zero gives the double zero.  In every other case, and for a bias
    from -957 to 1023, the exponent field of the result is neither 0 nor
    2047: the result is a normal number, not a zero (also without
    [IncludeZero], whatever the input), a subnormal, an infinity or a
    NaN. *)
Theorem RandU64ToDouble_zero_or_normal Signed IncludeZero ExponentBias bits :
  0 ≤ bits < 2 ^ 64 →
  (IncludeZero = true → magnitude Signed bits = 0 →
     RandU64ToDouble clz Signed IncludeZero ExponentBias bits = 0) ∧
  (-957 ≤ ExponentBias ≤ 1023 →
   IncludeZero = false ∨ magnitude Signed bits ≠ 0 →
     1 ≤ (RandU64ToDouble clz Signed IncludeZero ExponentBias bits / 2 ^ 52)
          mod 2 ^ 11 ≤ 2046).
Proof.
  intros Hb. split.
  - intros -> Hx0. unfold RandU64ToDouble.
    destruct Signed; simpl in *; rewrite ?land_magnitude, Hx0; done.
  - intros Hbias Hcase.
    pose proof (magnitude_range Signed bits Hb) as Hx.
    destruct (decide (magnitude Signed bits = 0)) as [Hx0|Hx0].
    + destruct Hcase as [->|?]; [|done].
      assert (He : 0 ≤ exponent_base Signed 1023 + ExponentBias - 64 < 2 ^ 11)
        by (destruct Signed; simpl; lia).
      rewrite (RandU64ToDouble_layout_zero Signed ExponentBias bits Hb Hx0 He).
      destruct (double_fields (sign_bit Signed bits)
                  (exponent_base Signed 1023 + ExponentBias - 64) 0)
        as (_ & Hexp & _); [by apply sign_bit_range|done|lia|].
      rewrite Z.add_0_r in Hexp. rewrite Hexp.
      destruct Signed; simpl; lia.
    + destruct (clz_spec (magnitude Signed bits)) as [Hc Hxc]; [lia|].
      assert (Hc1 : Signed = SignedValueT → 1 ≤ clz (magnitude Signed bits)).
      { intros ->. simpl in *.
        pose proof (Z.mod_pos_bound bits (2 ^ 63)).
        assert (63 - clz (bits mod 2 ^ 63) < 63); [|lia].
        apply (Z.pow_lt_mono_r_iff 2); lia. }
      assert (He : 1 ≤ exponent_base Signed 1023 + ExponentBias
                       - clz (magnitude Signed bits) ≤ 2046).
      { destruct Signed; simpl in *; lia. }
      destruct (RandU64ToDouble_layout Signed IncludeZero ExponentBias bits
                  Hb Hx0) as [Hval Hm]; [lia|].
      destruct (double_fields (sign_bit Signed bits)
                  (exponent_base Signed 1023 + ExponentBias
                   - clz (magnitude Signed bits))
                  (magnitude Signed bits * 2 ^ clz (magnitude Signed bits)
                   / 2 ^ 11 - 2 ^ 52))
        as (_ & Hexp & _); [by apply sign_bit_range|lia|done|].
      rewrite <- Hval in Hexp. by rewrite Hexp.
Qed.

Lemma clz_antitone a b :
  0 < a → a ≤ b → b < 2 ^ 64 → clz b ≤ clz a.
Proof.
  intros Ha Hab Hb.
  destruct (clz_spec a) as [Hca Hxa]; [lia|].
  destruct (clz_spec b) as [Hcb Hxb]; [lia|].
  assert (63 - clz a < 64 - clz b); [|lia].
  apply (Z.pow_lt_mono_r_iff 2); lia.
Qed.

(** X14: The documented use for a value in [0, 1),
    [RandU64ToDouble<PositiveValueT, true, 0>]: zero goes to the double
    zero and only zero does; every result is below the representation of
    1.0 (0x3FF0000000000000); and a larger input never gives a smaller
    word, hence (the words of doubles that are not negative being ordered
    as the doubles are) never a smaller value. *)
Theorem RandU64ToDouble_unit_interval a b :
  0 ≤ a → a ≤ b → b < 2 ^ 64 →
  let f := RandU64ToDouble clz PositiveValueT true 0 in
  f 0 = 0 ∧
  (0 < b → 0x3BF0000000000000 ≤ f b) ∧
  f b < 0x3FF0000000000000 ∧
  f a ≤ f b.
Proof.
  intros Ha Hab Hb f.
  assert (Hzero : f 0 = 0) by reflexivity.
  assert (Hpos : ∀ x, 0 < x < 2 ^ 64 →
            f x = (1022 - clz x) * 2 ^ 52 + (x * 2 ^ clz x / 2 ^ 11 - 2 ^ 52)
            ∧ 0 ≤ clz x ≤ 63
            ∧ 0 ≤ x * 2 ^ clz x / 2 ^ 11 - 2 ^ 52 < 2 ^ 52).
  { intros x Hx. destruct (clz_spec x) as [Hc Hxc]; [lia|].
    destruct (RandU64ToDouble_layout PositiveValueT true 0 x)
      as [Hval Hm]; simpl; [lia|lia|lia|].
    simpl in Hval, Hm. split; [|done]. unfold f. rewrite Hval. lia. }
  split; [done|]. split; [|split].
  - intros Hb0. destruct (Hpos b) as (-> & Hc & Hm); [lia|]. lia.
  - destruct (decide (b = 0)) as [->|Hb0]; [by rewrite Hzero|].
    destruct (Hpos b) as (-> & Hc & Hm); [lia|]. lia.
  - destruct (decide (a = 0)) as [->|Ha0].
    { rewrite Hzero. destruct (decide (b = 0)) as [->|Hb0]; [by rewrite Hzero|].
      destruct (Hpos b) as (-> & Hc & Hm); [lia|]. lia. }
    destruct (Hpos a) as (-> & Hca & Hma); [lia|].
    destruct (Hpos b) as (-> & Hcb & Hmb); [lia|].
    pose proof (clz_antitone a b ltac:(lia) Hab Hb) as Hanti.
    destruct (decide (clz a = clz b)) as [Heq|Hne].
    + rewrite Heq.
      assert (a * 2 ^ clz b / 2 ^ 11 ≤ b * 2 ^ clz b / 2 ^ 11); [|lia].
      apply Z.div_le_mono; [lia|].
      apply Z.mul_le_mono_nonneg_r; [apply Z.pow_nonneg|]; lia.
    + nia.
Qed.
End RandU64To_properties.

Lemma clz64_zero : clz64 0 = 64.
Proof. reflexivity. Qed.

Lemma clz64_spec n :
  0 < n < 2 ^ 64 →
  0 ≤ clz64 n ≤ 63 ∧ 2 ^ (63 - clz64 n) ≤ n < 2 ^ (64 - clz64 n).
Proof.
  intros Hn. unfold clz64.
  destruct (Z.eqb_spec n 0) as [->|_]; [lia|].
  pose proof (Z.log2_nonneg n).
  assert (Z.log2 n < 64) by (apply Z.log2_lt_pow2; lia).
  destruct (Z.log2_spec n) as [Hlo Hhi]; [lia|].
  replace (63 - (63 - Z.log2 n)) with (Z.log2 n) by lia.
  replace (64 - (63 - Z.log2 n)) with (Z.succ (Z.log2 n)) by lia.
  lia.
Qed.

(** The largest input: the result is the largest double below 1. *)
Lemma RandU64ToDouble_fields_witness :
  let val := RandU64ToDouble clz64 PositiveValueT true 0 (2 ^ 64 - 1) in
  val = 0x3FEFFFFFFFFFFFFF ∧
  val / 2 ^ 63 = 0 ∧ (val / 2 ^ 52) mod 2 ^ 11 = 1022 ∧
  val mod 2 ^ 52 = 2 ^ 52 - 1.
Proof.
  destruct (RandU64ToDouble_fields clz64 clz64_spec PositiveValueT true 0
              (2 ^ 64 - 1)) as (Hs & He & Hm & _);
    [done|done|done|].
  split; [reflexivity|]. split; [exact Hs|]. split; [exact He|].
  rewrite Hm. reflexivity.
Defined.

(** Without [IncludeZero] the input 0 gives 2^-65 for the signed variant
    (exponent field 959), not zero. *)
Lemma RandU64ToDouble_zero_or_normal_witness :
  RandU64ToDouble clz64 SignedValueT false 0 0 = 959 * 2 ^ 52 ∧
  1 ≤ (RandU64ToDouble clz64 SignedValueT false 0 0 / 2 ^ 52) mod 2 ^ 11
    ≤ 2046.
Proof.
  split; [reflexivity|].
  destruct (RandU64ToDouble_zero_or_normal clz64 clz64_zero clz64_spec
              SignedValueT false 0 0) as [_ Hnormal]; [done|].
  apply Hnormal; [lia|by left].
Defined.

Lemma RandU64ToDouble_unit_interval_witness :
  let f := RandU64ToDouble clz64 PositiveValueT true 0 in
  f 0 = 0 ∧ (0 < 2 ^ 63 → 0x3BF0000000000000 ≤ f (2 ^ 63)) ∧
  f (2 ^ 63) < 0x3FF0000000000000 ∧ f 1 ≤ f (2 ^ 63).
Proof.
  apply (RandU64ToDouble_unit_interval clz64 clz64_spec 1 (2 ^ 63)); lia.
Defined.

Section RandU64ToFloat_properties.
Variable clz : Z → Z.
Hypothesis clz_zero : clz 0 = 64.
Hypothesis clz_spec : ∀ n, 0 < n < 2 ^ 64 →
  0 ≤ clz n ≤ 63 ∧ 2 ^ (63 - clz n) ≤ n < 2 ^ (64 - clz n).

(** The float the code assembles from sign [s], exponent [e] and the
    shifted word [y]. *)
Lemma pack_float s e y :
  0 ≤ s ≤ 1 → 0 ≤ e < 2 ^ 8 → 0 ≤ y < 2 ^ 64 →
  u32 (Z.lor (Z.lor (s * 2 ^ 31) (u32 (Z.shiftl e 23)))
             (Z.land (Z.shiftr y 40) (u32 (Z.shiftl 1 23) - 1)))
  = s * 2 ^ 31 + e * 2 ^ 23 + (y / 2 ^ 40) mod 2 ^ 23.
Proof.
  intros Hs He Hy. unfold u32.
  rewrite !Z.shiftl_mul_pow2, Z.shiftr_div_pow2 by lia.
  rewrite (Z.mod_small (e * 2 ^ 23)) by lia.
  change (1 * 2 ^ 23 mod 2 ^ 32 - 1) with (Z.ones 23).
  rewrite Z.land_ones by lia.
  pose proof (Z.mod_pos_bound (y / 2 ^ 40) (2 ^ 23)).
  rewrite (lor_disjoint s (e * 2 ^ 23) 31) by lia.
  replace (s * 2 ^ 31 + e * 2 ^ 23) with ((e + s * 2 ^ 8) * 2 ^ 23) by lia.
  rewrite lor_disjoint by lia. apply Z.mod_small. lia.
Qed.

Lemma float_sign Signed bits :
  0 ≤ bits < 2 ^ 64 →
  match Signed with
  | NegativeValueT => 0x80000000
  | PositiveValueT => 0
  | SignedValueT => u32 (Z.shiftr (Z.land bits 0x8000000000000000) 32)
  end = sign_bit Signed bits * 2 ^ 31.
Proof.
  intros Hb. destruct Signed; simpl; try done.
  rewrite land_sign_bit by done.
  pose proof (sign_bit_range SignedValueT bits Hb) as Hs. simpl in Hs.
  rewrite Z.shiftr_div_pow2 by lia.
  replace (bits / 2 ^ 63 * 2 ^ 63) with (bits / 2 ^ 63 * 2 ^ 31 * 2 ^ 32)
    by lia.
  rewrite Z.div_mul by lia. unfold u32. apply Z.mod_small. lia.
Qed.

(** The word [RandU64ToFloat] assembles for a magnitude that is not
    zero. *)
Lemma RandU64ToFloat_layout Signed IncludeZero ExponentBias bits :
  0 ≤ bits < 2 ^ 64 →
  magnitude Signed bits ≠ 0 →
  let x := magnitude Signed bits in
  let e := exponent_base Signed 127 + ExponentBias - clz x in
  0 ≤ e < 2 ^ 8 →
  RandU64ToFloat clz Signed IncludeZero ExponentBias bits =
    sign_bit Signed bits * 2 ^ 31 + e * 2 ^ 23 +
    (x * 2 ^ clz x / 2 ^ 40 - 2 ^ 23) ∧
  0 ≤ x * 2 ^ clz x / 2 ^ 40 - 2 ^ 23 < 2 ^ 23.
Proof.
  intros Hb Hx0 x e He.
  pose proof (magnitude_range Signed bits Hb) as Hx. fold x in Hx, Hx0.
  destruct (clz_spec x) as [Hc Hxc]; [lia|].
  pose proof (normalised x (clz x) Hc Hxc) as Hn.
  assert (Hy : 2 ^ 23 ≤ x * 2 ^ clz x / 2 ^ 40 < 2 ^ 24).
  { split; [apply Z.div_le_lower_bound; lia
           |apply Z.div_lt_upper_bound; lia]. }
  split; [|lia].
  assert (Hcore :
    u32 (Z.lor (Z.lor (sign_bit Signed bits * 2 ^ 31)
                 (u32 (Z.shiftl (u32 (exponent_base Signed 127
                                      + u32 (ExponentBias - clz x))) 23)))
          (Z.land (Z.shiftr (u64 (Z.shiftl x
                     (if IncludeZero then clz x else Z.land (clz x) 63))) 40)
                  (u32 (Z.shiftl 1 23) - 1)))
    = sign_bit Signed bits * 2 ^ 31 + e * 2 ^ 23 +
      (x * 2 ^ clz x / 2 ^ 40 - 2 ^ 23)).
  { assert (Hshift : (if IncludeZero then clz x else Z.land (clz x) 63)
                     = clz x).
    { destruct IncludeZero; [done|].
      change 63 with (Z.ones 6). rewrite Z.land_ones by lia.
      apply Z.mod_small. lia. }
    rewrite Hshift.
    assert (Hexp : u32 (exponent_base Signed 127
                        + u32 (ExponentBias - clz x)) = e).
    { unfold u32. rewrite Zplus_mod_idemp_r.
      replace (exponent_base Signed 127 + (ExponentBias - clz x)) with e
        by (unfold e; lia).
      apply Z.mod_small. lia. }
    rewrite Hexp.
    assert (Hword : u64 (Z.shiftl x (clz x)) = x * 2 ^ clz x).
    { unfold u64. rewrite Z.shiftl_mul_pow2 by lia.
      apply Z.mod_small. lia. }
    rewrite Hword.
    rewrite pack_float; [|by apply sign_bit_range|lia|lia].
    replace ((x * 2 ^ clz x / 2 ^ 40) mod 2 ^ 23)
      with (x * 2 ^ clz x / 2 ^ 40 - 2 ^ 23); [done|].
    apply Z.mod_unique with (q := 1); lia. }
  rewrite <- Hcore, <- (float_sign Signed bits Hb). unfold RandU64ToFloat.
  assert (Hnz : (IncludeZero && (x =? 0)) = false).
  { rewrite andb_false_iff. right. by apply Z.eqb_neq. }
  destruct Signed; simpl in *; fold x.
  - rewrite Hnz. reflexivity.
  - rewrite Hnz. reflexivity.
  - rewrite land_magnitude. fold x. rewrite Hnz. reflexivity.
Qed.

Lemma float_fields s e m :
  0 ≤ s ≤ 1 → 0 ≤ e < 2 ^ 8 → 0 ≤ m < 2 ^ 23 →
  let val := s * 2 ^ 31 + e * 2 ^ 23 + m in
  val / 2 ^ 31 = s ∧ (val / 2 ^ 23) mod 2 ^ 8 = e ∧ val mod 2 ^ 23 = m.
Proof.
  intros Hs He Hm val. subst val. repeat split.
  - symmetry. apply Z.div_unique with (r := e * 2 ^ 23 + m); lia.
  - replace (s * 2 ^ 31 + e * 2 ^ 23 + m)
      with ((s * 2 ^ 8 + e) * 2 ^ 23 + m) by lia.
    rewrite Z.div_add_l, (Z.div_small m) by lia.
    rewrite Z.add_0_r. symmetry.
    apply Z.mod_unique with (q := s); lia.
  - symmetry. apply Z.mod_unique with (q := s * 2 ^ 8 + e); lia.
Qed.

(** X15: How the result of [RandU64ToFloat] is laid out, and that it fits in 32
    bits: for an input whose magnitude is not zero and an [ExponentBias]
    that keeps the exponent in its 8 bits, the sign bit is the one the
    [Signed] parameter selects (for the signed variant: bit 63 of the
    input, moved to bit 31), the exponent field is the starting exponent
    plus the bias minus the number of leading zeros, and the mantissa field
    holds the 23 bits that follow the leading one of the magnitude. *)
Theorem RandU64ToFloat_fields Signed IncludeZero ExponentBias bits :
  0 ≤ bits < 2 ^ 64 →
  magnitude Signed bits ≠ 0 →
  let x := magnitude Signed bits in
  let e := exponent_base Signed 127 + ExponentBias - clz x in
  0 ≤ e < 2 ^ 8 →
  let val := RandU64ToFloat clz Signed IncludeZero ExponentBias bits in
  0 ≤ val < 2 ^ 32 ∧
  val / 2 ^ 31 = sign_bit Signed bits ∧
  (val / 2 ^ 23) mod 2 ^ 8 = e ∧
  val mod 2 ^ 23 = (x * 2 ^ clz x / 2 ^ 40) mod 2 ^ 23.
Proof.
  intros Hb Hx0 x e He val.
  destruct (RandU64ToFloat_layout Signed IncludeZero ExponentBias bits
              Hb Hx0 He) as [Hval Hm].
  fold x e val in Hval, Hm.
  pose proof (sign_bit_range Signed bits Hb) as Hsr.
  destruct (float_fields (sign_bit Signed bits) e
              (x * 2 ^ clz x / 2 ^ 40 - 2 ^ 23))
    as (Hs & Hexp & Hman); [done|done|done|].
  rewrite <- Hval in Hs, Hexp, Hman.
  split; [lia|]. split; [done|]. split; [done|].
  rewrite Hman. apply Z.mod_unique with (q := 1); lia.
Qed.
End RandU64ToFloat_properties.

(** The largest input with the signed variant: the result is the negative
    float of largest magnitude below 1, 0xBF7FFFFF. *)
Lemma RandU64ToFloat_fields_witness :
  let val := RandU64ToFloat clz64 SignedValueT true 0 (2 ^ 64 - 1) in
  val = 0xBF7FFFFF ∧
  0 ≤ val < 2 ^ 32 ∧ val / 2 ^ 31 = 1 ∧ (val / 2 ^ 23) mod 2 ^ 8 = 126.
Proof.
  destruct (RandU64ToFloat_fields clz64 clz64_spec SignedValueT true 0
              (2 ^ 64 - 1)) as (Hr & Hs & He & _);
    [done|done|done|].
  split; [reflexivity|]. split; [exact Hr|]. split; [exact Hs|exact He].
Defined.
